(** * AutoDJ: compatibility model, tour solver and crossfade mixer

    A shallow embedding of [tsp_autodj.py] (Camelot wheel, BPM distance,
    distance matrix, nearest-neighbour + 2-opt tour solver) and of
    [tsp_autodj_player.py] (the [AudioMixer] render path and the crossfade
    compatibility score).

    Numbers.  Python floats of the planner are modelled by exact rationals
    ([Q], compared with [==]); audio samples (numpy float32) are modelled by
    real numbers, so that [np.tanh] is the real hyperbolic tangent.  Rounding
    is therefore not part of the model.

    Errors.  Python exceptions are values of the error monad [res]. *)

From Stdlib Require Import String Bool Arith ZArith QArith Qabs Qminmax List.
From Stdlib Require Import DecimalString.
From Stdlib Require Import Lia Lqa Lra Permutation Sorted Reals.
Import ListNotations.

Local Open Scope Q_scope.

(** ** Error monad: Python exceptions as values *)

Inductive exn : Type :=
| IndexError      (* list / array subscript out of range *)
| KeyError        (* [set.remove] of an absent element *)
| TypeError       (* [len(None)] and the like *)
| ValueError      (* numpy: shapes of a slice assignment do not match *)
| OutOfFuel.      (* a modelled [while] loop exceeded its iteration bound *)

Inductive res (A : Type) : Type :=
| Ok (a : A)
| Raise (e : exn).
Arguments Ok {A} a.
Arguments Raise {A} e.

Definition bind {A B : Type} (c : res A) (k : A -> res B) : res B :=
  match c with
  | Ok a => k a
  | Raise e => Raise e
  end.

Notation "x <- c ;; k" := (bind c (fun x => k))
  (at level 61, c at next level, right associativity).

(** [l[i]] for a non-negative index. *)
Definition index {A : Type} (l : list A) (i : nat) : res A :=
  match nth_error l i with
  | Some a => Ok a
  | None => Raise IndexError
  end.

(** A [for] loop over the values [ixs], threading the loop state. *)
Fixpoint for_each {S : Type} (ixs : list nat) (body : nat -> S -> res S) (s : S)
  : res S :=
  match ixs with
  | [] => Ok s
  | i :: rest => s' <- body i s ;; for_each rest body s'
  end.

(** [range(lo, hi)]; empty when [hi <= lo]. *)
Definition range (lo hi : nat) : list nat := seq lo (hi - lo).

(** ** tsp_autodj.py: SongMetadata *)

Record SongMetadata : Type := mkSong {
  path : string;
  name : string;
  bpm : Q;
  key : string;
  energy : Q;
  duration : Q
}.

(** ** tsp_autodj.py: CamelotWheel *)

Module CamelotWheel.

Definition WHEEL_POSITIONS : list (string * Z) :=
  [ ("1A", 0); ("1B", 1); ("2A", 2); ("2B", 3); ("3A", 4); ("3B", 5);
    ("4A", 6); ("4B", 7); ("5A", 8); ("5B", 9); ("6A", 10); ("6B", 11);
    ("7A", 12); ("7B", 13); ("8A", 14); ("8B", 15); ("9A", 16); ("9B", 17);
    ("10A", 18); ("10B", 19); ("11A", 20); ("11B", 21); ("12A", 22);
    ("12B", 23) ]%string%Z.

Fixpoint lookup (k : string) (d : list (string * Z)) : option Z :=
  match d with
  | [] => None
  | (k', v) :: rest => if String.eqb k k' then Some v else lookup k rest
  end.

Definition key_distance (key1 key2 : string) : Q :=
  if String.eqb key1 key2 then 0
  else
    match lookup key1 WHEEL_POSITIONS, lookup key2 WHEEL_POSITIONS with
    | Some pos1, Some pos2 =>
        let circle_pos1 := (pos1 / 2)%Z in
        let circle_pos2 := (pos2 / 2)%Z in
        let circle_dist :=
          Z.min (Z.abs (circle_pos1 - circle_pos2))
                (12 - Z.abs (circle_pos1 - circle_pos2)) in
        let side_penalty :=
          if negb (pos1 mod 2 =? pos2 mod 2)%Z then 2 # 10 else 0 in
        let normalized_dist := inject_Z circle_dist / 6 + side_penalty in
        Qmin normalized_dist 1
    | _, _ => 1
    end.

(** [d[k] = v] on a dictionary kept as an association list in insertion
    order: an existing key keeps its place and takes the new value. *)
Fixpoint dict_set (d : list (Z * string)) (k : Z) (v : string)
  : list (Z * string) :=
  match d with
  | [] => [(k, v)]
  | (k', v') :: rest =>
      if (k =? k')%Z then (k, v) :: rest else (k', v') :: dict_set rest k v
  end.

(** [{v: k for k, v in WHEEL_POSITIONS.items()}] *)
Definition POSITION_TO_KEY : list (Z * string) :=
  fold_left (fun d kv => dict_set d (snd kv) (fst kv)) WHEEL_POSITIONS [].

Fixpoint lookup_position (p : Z) (d : list (Z * string)) : option string :=
  match d with
  | [] => None
  | (p', k) :: rest => if (p =? p')%Z then Some k else lookup_position p rest
  end.

Definition get_compatible_keys (key : string) (max_distance : Q) : list string :=
  fold_left
    (fun compatible other_key =>
       if Qle_bool (key_distance key other_key) max_distance
       then compatible ++ [other_key]
       else compatible)
    (map fst WHEEL_POSITIONS) [].

(** The default [max_distance = 0.3]. *)
Definition max_distance_default : Q := 3 # 10.

(** [f"{shift + 1}B"] and [f"{shift + 1}A"] *)
Definition key_name (number : nat) (side : string) : string :=
  (NilEmpty.string_of_uint (Nat.to_uint number) ++ side)%string.

(** The selection loop of [estimate_key_from_chroma].  The two correlation
    coefficients of each shift, which numpy computes from the chromagram,
    are inputs; [None] is a NaN coefficient, which no comparison accepts. *)
Definition exceeds (corr : option Q) (best_correlation : Q) : bool :=
  match corr with
  | Some c => negb (Qle_bool c best_correlation)
  | None => false
  end.

Definition estimate_key_from_chroma (corr_major corr_minor : nat -> option Q)
  : string :=
  snd (fold_left
         (fun (best : Q * string) shift =>
            let best :=
              if exceeds (corr_major shift) (fst best)
              then (match corr_major shift with Some c => c | None => fst best end,
                    key_name (shift + 1) "B")
              else best in
            if exceeds (corr_minor shift) (fst best)
            then (match corr_minor shift with Some c => c | None => fst best end,
                  key_name (shift + 1) "A")
            else best)
         (seq 0 12) (- (1), "1A"%string)).

End CamelotWheel.

(** ** tsp_autodj.py: BPMDistance *)

Module BPMDistance.

Definition harmonic_ratios : list Q := [2; 3 # 2; 4 / 3; 3 / 4; 2 / 3; 1 # 2].

(** [bpm_distance] with its keyword argument written out. *)
Definition bpm_distance_ht (bpm1 bpm2 harmonic_threshold : Q) : Q :=
  if Qeq_bool bpm1 0 || Qeq_bool bpm2 0 then 1
  else
    let ratio := Qmax bpm1 bpm2 / Qmin bpm1 bpm2 in
    if Qle_bool (ratio - 1) harmonic_threshold
    then (ratio - 1) / harmonic_threshold
    else
      fold_left
        (fun best_distance target_ratio =>
           let actual_ratio := bpm1 / bpm2 in
           let ratio_error := Qabs (actual_ratio - target_ratio) / target_ratio in
           if Qle_bool ratio_error harmonic_threshold
           then Qmin best_distance (ratio_error / harmonic_threshold)
           else best_distance)
        harmonic_ratios 1.

(** The call with the default [harmonic_threshold = 0.08]. *)
Definition bpm_distance (bpm1 bpm2 : Q) : Q :=
  bpm_distance_ht bpm1 bpm2 (8 # 100).

End BPMDistance.

(** ** tsp_autodj.py: TSPSolver *)

Module TSPSolver.

Local Open Scope nat_scope.

Definition matrix : Type := list (list Q).

(** [float('inf')] is [None]; every rational is below it. *)
Definition Qlt_bool (x y : Q) : bool := negb (Qle_bool y x).

Definition lt_inf (x : Q) (bound : option Q) : bool :=
  match bound with
  | None => true
  | Some y => Qlt_bool x y
  end.

Fixpoint update {A : Type} (l : list A) (i : nat) (v : A) : list A :=
  match l, i with
  | [], _ => []
  | _ :: t, 0 => v :: t
  | h :: t, S i' => h :: update t i' v
  end.

(** [np.zeros((r, c))] *)
Definition zeros (r c : nat) : matrix := repeat (repeat 0%Q c) r.

(** [matrix[i][j]] *)
Definition cell (m : matrix) (i j : nat) : res Q :=
  row <- index m i ;; index row j.

(** [matrix[i][j] = v] *)
Definition set_cell (m : matrix) (i j : nat) (v : Q) : res matrix :=
  row <- index m i ;;
  if j <? length row then Ok (update m i (update row j v))
  else Raise IndexError.

(** The object: [self.songs], [self.n], [self.distance_matrix]. *)
Record t : Type := mk {
  songs : list SongMetadata;
  n : nat;
  distance_matrix : matrix
}.

Definition _calculate_distance (song1 song2 : SongMetadata) : Q :=
  let key_dist := CamelotWheel.key_distance (key song1) (key song2) in
  let bpm_dist := BPMDistance.bpm_distance (bpm song1) (bpm song2) in
  let energy_diff := Qabs (energy song1 - energy song2) in
  let energy_dist := Qmin (energy_diff / (1 # 10)) 1 in
  (key_dist * (5 # 10) + bpm_dist * (35 # 100) + energy_dist * (15 # 100))%Q.

Definition _build_distance_matrix (songs : list SongMetadata) (n : nat)
  : res matrix :=
  for_each (range 0 n)
    (fun i matrix =>
       for_each (range 0 n)
         (fun j matrix =>
            if i =? j then set_cell matrix i j 0%Q
            else
              si <- index songs i ;;
              sj <- index songs j ;;
              set_cell matrix i j (_calculate_distance si sj))
         matrix)
    (zeros n n).

(** [TSPSolver(songs)] *)
Definition __init__ (songs : list SongMetadata) : res t :=
  let n := length songs in
  distance_matrix <- _build_distance_matrix songs n ;;
  Ok (mk songs n distance_matrix).

(** [_calculate_tour_distance]: the cyclic length of a tour.  Tour entries
    are natural numbers (the negative indices that numpy counts from the end
    are outside the model), and the sum is exact where the code adds
    binary64 numbers from left to right. *)
Definition _calculate_tour_distance (self : t) (tour : list nat) : res Q :=
  for_each (range 0 (length tour))
    (fun i total =>
       let j := (i + 1) mod length tour in
       a <- index tour i ;;
       b <- index tour j ;;
       d <- cell (distance_matrix self) a b ;;
       Ok (total + d)%Q)
    0%Q.

(** [unvisited.remove(x)] on the set kept as a list in iteration order
    (a CPython set of small non-negative integers iterates in increasing
    order). *)
Fixpoint set_remove (x : nat) (s : list nat) : res (list nat) :=
  match s with
  | [] => Raise KeyError
  | y :: s' => if x =? y then Ok s' else s'' <- set_remove x s' ;; Ok (y :: s'')
  end.

(** The inner [for next_song in unvisited] scan. *)
Fixpoint nearest_scan (self : t) (current : nat) (unvisited : list nat)
         (nearest_distance : option Q) (nearest_song : option nat)
  : res (option Q * option nat) :=
  match unvisited with
  | [] => Ok (nearest_distance, nearest_song)
  | next_song :: rest =>
      distance <- cell (distance_matrix self) current next_song ;;
      if lt_inf distance nearest_distance
      then nearest_scan self current rest (Some distance) (Some next_song)
      else nearest_scan self current rest nearest_distance nearest_song
  end.

(** [while unvisited:]; every pass removes one element, so the number of
    elements bounds the number of passes. *)
Fixpoint nn_while (fuel : nat) (self : t) (tour unvisited : list nat)
         (current : nat) : res (list nat) :=
  match unvisited with
  | [] => Ok tour
  | _ :: _ =>
      match fuel with
      | 0 => Raise OutOfFuel
      | S fuel' =>
          r <- nearest_scan self current unvisited None None ;;
          match snd r with
          | None => Raise KeyError     (* [unvisited.remove(None)] *)
          | Some nearest_song =>
              unvisited' <- set_remove nearest_song unvisited ;;
              nn_while fuel' self (tour ++ [nearest_song]) unvisited'
                       nearest_song
          end
      end
  end.

Definition solve_nearest_neighbor (self : t) (start_index : nat)
  : res (list nat) :=
  let unvisited := range 0 (n self) in
  let tour := [start_index] in
  unvisited <- set_remove start_index unvisited ;;
  nn_while (length unvisited) self tour unvisited start_index.

(** [new_tour[i:j] = reversed(new_tour[i:j])] *)
Definition reverse_slice (tour : list nat) (i j : nat) : list nat :=
  firstn i tour ++ rev (firstn (j - i) (skipn i tour)) ++ skipn j tour.

(** The local variables of [improve_2opt]. *)
Record opt_state : Type := mkOpt {
  best_tour : list nat;
  best_distance : Q;
  tour : list nat;
  improved : bool
}.

(** [for j in range(i + 1, len(tour))], left by [break] on an improvement. *)
Fixpoint scan_j (self : t) (i : nat) (js : list nat) (st : opt_state)
  : res opt_state :=
  match js with
  | [] => Ok st
  | j :: js' =>
      if j - i =? 1 then scan_j self i js' st
      else
        let new_tour := reverse_slice (tour st) i j in
        new_distance <- _calculate_tour_distance self new_tour ;;
        if Qlt_bool new_distance (best_distance st)
        then Ok (mkOpt new_tour new_distance new_tour true)
        else scan_j self i js' st
  end.

(** [for i in range(1, len(tour) - 2)], left when [improved]. *)
Fixpoint scan_i (self : t) (ixs : list nat) (st : opt_state) : res opt_state :=
  match ixs with
  | [] => Ok st
  | i :: ixs' =>
      st' <- scan_j self i (range (i + 1) (length (tour st))) st ;;
      if improved st' then Ok st' else scan_i self ixs' st'
  end.

(** [for iteration in range(max_iterations)], left when a full scan finds
    no improvement. *)
Fixpoint iterations (k : nat) (self : t) (st : opt_state) : res opt_state :=
  match k with
  | 0 => Ok st
  | S k' =>
      let st0 := mkOpt (best_tour st) (best_distance st) (tour st) false in
      st1 <- scan_i self (range 1 (length (tour st0) - 2)) st0 ;;
      if negb (improved st1) then Ok st1 else iterations k' self st1
  end.

Definition improve_2opt (self : t) (tour : list nat) (max_iterations : nat)
  : res (list nat) :=
  let best_tour := tour in
  best_distance <- _calculate_tour_distance self best_tour ;;
  st <- iterations max_iterations self (mkOpt best_tour best_distance tour false) ;;
  Ok (TSPSolver.best_tour st).

Definition max_iterations_default : nat := 1000.

(** [solve]; the result is [best_tour], which starts as [None]. *)
Definition solve (self : t) : res (option (list nat)) :=
  if n self <=? 1 then Ok (Some (range 0 (n self)))
  else
    let start_points := range 0 (Nat.min 5 (n self)) in
    r <- for_each start_points
           (fun start (acc : option (list nat) * option Q) =>
              tour <- solve_nearest_neighbor self start ;;
              tour <- improve_2opt self tour max_iterations_default ;;
              distance <- _calculate_tour_distance self tour ;;
              if lt_inf distance (snd acc)
              then Ok (Some tour, Some distance)
              else Ok acc)
           (None, None) ;;
    Ok (fst r).

End TSPSolver.

(** ** tsp_autodj_player.py: AudioMixer *)

Module AudioMixer.

Local Open Scope nat_scope.

(** One stereo frame; a buffer is an array of shape [(len, 2)]. *)
Definition frame : Type := (R * R)%type.
Definition buffer : Type := list frame.

Definition np_zeros (k : nat) : buffer := repeat (0%R, 0%R) k.

(** [a[lo:hi]] (bounds are clamped, as Python does). *)
Definition slice (a : buffer) (lo hi : nat) : buffer :=
  firstn (hi - lo) (skipn lo a).

(** [a * w] for a scalar [w] *)
Definition scale (a : buffer) (w : R) : buffer :=
  map (fun f => (fst f * w, snd f * w)%R) a.

(** [a + b], elementwise, on arrays of one shape *)
Definition add (a b : buffer) : buffer :=
  map (fun p => (fst (fst p) + fst (snd p), snd (fst p) + snd (snd p))%R)
      (combine a b).

(** [a[lo:hi] = v]; numpy refuses a value of another length. *)
Definition assign (a : buffer) (lo hi : nat) (v : buffer) : res buffer :=
  if length (slice a lo hi) =? length v
  then Ok (firstn lo a ++ v ++ skipn hi a)
  else Raise ValueError.

(** [np.tanh(x * 0.95) * 0.95] *)
Definition soft_limit (x : R) : R := (tanh (x * (95 / 100)) * (95 / 100))%R.

Record t : Type := mk {
  sample_rate : nat;
  current_audio : option buffer;
  next_audio : option buffer;
  crossfade_samples : nat;
  current_position : nat;
  is_crossfading : bool;
  crossfade_position : nat;
  master_volume : R;
  is_playing : bool
}.

Definition __init__ (sample_rate : nat) : t :=
  mk sample_rate None None (sample_rate * 4) 0 false 0 (8 / 10)%R false.

Definition set_current_audio (self : t) (a : option buffer) : t :=
  mk (sample_rate self) a (next_audio self) (crossfade_samples self)
     (current_position self) (is_crossfading self) (crossfade_position self)
     (master_volume self) (is_playing self).

Definition set_next_audio (self : t) (a : option buffer) : t :=
  mk (sample_rate self) (current_audio self) a (crossfade_samples self)
     (current_position self) (is_crossfading self) (crossfade_position self)
     (master_volume self) (is_playing self).

Definition set_current_position (self : t) (p : nat) : t :=
  mk (sample_rate self) (current_audio self) (next_audio self)
     (crossfade_samples self) p (is_crossfading self)
     (crossfade_position self) (master_volume self) (is_playing self).

Definition set_is_crossfading (self : t) (b : bool) : t :=
  mk (sample_rate self) (current_audio self) (next_audio self)
     (crossfade_samples self) (current_position self) b
     (crossfade_position self) (master_volume self) (is_playing self).

Definition set_crossfade_position (self : t) (p : nat) : t :=
  mk (sample_rate self) (current_audio self) (next_audio self)
     (crossfade_samples self) (current_position self) (is_crossfading self)
     p (master_volume self) (is_playing self).

Definition set_is_playing (self : t) (b : bool) : t :=
  mk (sample_rate self) (current_audio self) (next_audio self)
     (crossfade_samples self) (current_position self) (is_crossfading self)
     (crossfade_position self) (master_volume self) b.

(** The local [output] is either an array of its own or a view of
    [self.current_audio[lo:hi]] (a numpy basic slice shares the data). *)
Inductive array : Type :=
| Owned (data : buffer)
| View (lo hi : nat).

Definition read (self : t) (output : array) : buffer :=
  match output with
  | Owned data => data
  | View lo hi =>
      match current_audio self with
      | Some cur => slice cur lo hi
      | None => []
      end
  end.

(** [output *= w], in place: through a view it writes the track's buffer. *)
Definition imul (self : t) (output : array) (w : R) : t * array :=
  match output with
  | Owned data => (self, Owned (scale data w))
  | View lo hi =>
      match current_audio self with
      | Some cur =>
          (set_current_audio self
             (Some (firstn lo cur ++ scale (slice cur lo hi) w ++ skipn hi cur)),
           View lo hi)
      | None => (self, View lo hi)
      end
  end.

(** The [while samples_generated < frame_count] loop of the crossfade
    branch.  Every pass that does not leave the loop generates at least one
    sample, so [frame_count] bounds the number of passes. *)
Fixpoint crossfade_while (fuel frame_count : nat) (self : t) (output : buffer)
         (samples_generated : nat) : res (t * buffer) :=
  if samples_generated <? frame_count then
    match fuel with
    | 0 => Raise OutOfFuel
    | S fuel' =>
        let samples_needed :=
          Nat.min (frame_count - samples_generated)
                  (crossfade_samples self - crossfade_position self) in
        if samples_needed <=? 0 then Ok (self, output)
        else
          let fade_progress :=
            (INR (crossfade_position self) / INR (crossfade_samples self))%R in
          let current_weight := (1 - fade_progress)%R in
          let next_weight := fade_progress in
          let current_chunk :=
            match current_audio self with
            | Some cur =>
                if current_position self + samples_needed <=? length cur
                then slice cur (current_position self)
                           (current_position self + samples_needed)
                else np_zeros samples_needed
            | None => np_zeros samples_needed
            end in
          let next_chunk :=
            match next_audio self with
            | Some nxt =>
                if samples_needed <=? length nxt
                then slice nxt 0 samples_needed
                else np_zeros samples_needed
            | None => np_zeros samples_needed
            end in
          let mixed_chunk :=
            add (scale current_chunk current_weight)
                (scale next_chunk next_weight) in
          output <- assign output samples_generated
                      (samples_generated + samples_needed) mixed_chunk ;;
          let self :=
            set_current_position self (current_position self + samples_needed) in
          let self :=
            set_crossfade_position self (crossfade_position self + samples_needed) in
          let samples_generated := samples_generated + samples_needed in
          if crossfade_samples self <=? crossfade_position self then
            let self := set_current_audio self (next_audio self) in
            let self := set_next_audio self None in
            let self := set_current_position self samples_needed in
            let self := set_is_crossfading self false in
            let self := set_crossfade_position self 0 in
            Ok (self, output)
          else crossfade_while fuel' frame_count self output samples_generated
    end
  else Ok (self, output).

Definition _generate_audio_chunk (self : t) (frame_count : nat)
  : res (t * buffer) :=
  let output := np_zeros frame_count in
  r <- (if negb (is_crossfading self) then
          match current_audio self with
          | None => Raise TypeError          (* [len(self.current_audio)] *)
          | Some cur =>
              if current_position self + frame_count <? length cur then
                Ok (set_current_position self
                      (current_position self + frame_count),
                    View (current_position self)
                         (current_position self + frame_count))
              else
                let remaining := length cur - current_position self in
                output <- (if 0 <? remaining
                           then assign output 0 remaining
                                  (slice cur (current_position self) (length cur))
                           else Ok output) ;;
                Ok (set_current_position self (length cur), Owned output)
          end
        else
          r <- crossfade_while frame_count frame_count self output 0 ;;
          Ok (fst r, Owned (snd r))) ;;
  (* Apply master volume *)
  let '(self, output) := imul (fst r) (snd r) (master_volume (fst r)) in
  (* Soft limiting *)
  Ok (self, map (fun f => (soft_limit (fst f), soft_limit (snd f)))
                (read self output)).

(** The stream callback; its result is the block handed to the device, as
    the array of frames before [tobytes()]; the dtype of that array and the
    number of bytes are [output_dtype] and [_audio_callback_nbytes] below.
    The [except] branch hands over silence; the mixer is taken as it was on
    entry there (with a current buffer the call below does not raise, see
    [generate_audio_chunk_ok]). *)
Definition _audio_callback (self : t) (frame_count : nat) : t * buffer :=
  if negb (is_playing self)
     || match current_audio self with None => true | Some _ => false end
  then (self, np_zeros frame_count)
  else
    match _generate_audio_chunk self frame_count with
    | Ok r => r
    | Raise _ => (self, np_zeros frame_count)
    end.

(** [play_song]; [audio] is what [self.load_song_stems(song_path)]
    returned (reading the stems is outside the model). *)
Definition play_song (self : t) (audio : option buffer) : t * bool :=
  match audio with
  | None => (self, false)
  | Some a =>
      let self := set_current_audio self (Some a) in
      let self := set_current_position self 0 in
      let self := set_is_playing self true in
      (self, true)
  end.

(** [prepare_next_song], on the result of [load_song_stems]. *)
Definition prepare_next_song (self : t) (audio : option buffer) : t :=
  match audio with
  | None => self
  | Some a => set_next_audio self (Some a)
  end.

Definition start_crossfade (self : t) : t * bool :=
  match next_audio self with
  | Some _ =>
      let self := set_is_crossfading self true in
      let self := set_crossfade_position self 0 in
      (self, true)
  | None => (self, false)
  end.

Definition stop (self : t) : t := set_is_playing self false.

(** [get_playback_info]: the dictionary it returns. *)
Inductive playback_info : Type :=
| NotLoaded                          (* [{'playing': False}] *)
| Info (playing : bool) (progress remaining_time : Q)
       (crossfading next_prepared : bool).

(** [None] is the [ZeroDivisionError] of a zero sample rate. *)
Definition get_playback_info (self : t) : option playback_info :=
  match current_audio self with
  | None => Some NotLoaded
  | Some cur =>
      let total_samples := length cur in
      let progress :=
        if 0 <? total_samples
        then (inject_Z (Z.of_nat (current_position self))
              / inject_Z (Z.of_nat total_samples))%Q
        else 0%Q in
      if sample_rate self =? 0 then None
      else
        let remaining_time :=
          (inject_Z (Z.of_nat total_samples - Z.of_nat (current_position self))
           / inject_Z (Z.of_nat (sample_rate self)))%Q in
        Some (Info (is_playing self) progress remaining_time
                   (is_crossfading self)
                   (match next_audio self with Some _ => true | None => false end))
  end.

(** What became of one stem file of the song directory: it is not there,
    [librosa.load] raised, or it was decoded and brought to the shape
    [(samples, 2)] (mono files doubled; files with more channels are outside
    the model). *)
Inductive stem_file : Type :=
| Missing
| Unreadable
| Decoded (stem_audio : buffer).

(** [np.max(np.abs(a))]; numpy refuses an empty array. *)
Definition np_max_abs (a : buffer) : res R :=
  match a with
  | [] => Raise ValueError
  | f :: rest =>
      Ok (fold_left (fun m g => Rmax m (Rmax (Rabs (fst g)) (Rabs (snd g))))
                    rest (Rmax (Rabs (fst f)) (Rabs (snd f))))
  end.

(** [load_song_stems]: [dir_exists] is [song_dir.exists()], and [stems]
    lists, in the order of [stem_volumes], the volume of each stem and what
    became of its file.  The rescaling by [0.95 / max_val] is exact here,
    where the code multiplies float32 samples. *)
Definition load_song_stems (dir_exists : bool) (stems : list (R * stem_file))
  : res (option buffer) :=
  if negb dir_exists then Ok None
  else
    let '(mixed_audio, stems_loaded) :=
      fold_left
        (fun (acc : option buffer * nat) (stem : R * stem_file) =>
           match snd stem with
           | Missing => acc
           | Unreadable => acc
           | Decoded stem_audio =>
               let stem_audio := scale stem_audio (fst stem) in
               match fst acc with
               | None => (Some stem_audio, snd acc + 1)
               | Some mixed_audio =>
                   let min_len := Nat.min (length mixed_audio) (length stem_audio) in
                   (Some (add (slice mixed_audio 0 min_len)
                              (slice stem_audio 0 min_len)),
                    snd acc + 1)
               end
           end)
        stems (None, 0) in
    match mixed_audio with
    | Some mixed_audio =>
        if 0 <? stems_loaded then
          max_val <- np_max_abs mixed_audio ;;
          if Rlt_dec (95 / 100) max_val
          then Ok (Some (scale mixed_audio (95 / 100 / max_val)))
          else Ok (Some mixed_audio)
        else Ok None
    | None => Ok None
    end.

(** The element type of an array, and the bytes one element takes. *)
Inductive dtype : Type := float32 | float64.

Definition itemsize (d : dtype) : nat :=
  match d with
  | float32 => 4
  | float64 => 8
  end.

(** The dtype of the array that [_audio_callback] turns into bytes, when
    [self.current_audio] has dtype [current_dtype].  Silence and the array
    of line 74 are float32 and slice assignments cast into it; the slice of
    line 79 has the dtype of the track; [*=] and [np.tanh(...) * 0.95] keep
    the dtype of their operand. *)
Definition output_dtype (self : t) (current_dtype : dtype) (frame_count : nat)
  : dtype :=
  if negb (is_playing self)
     || match current_audio self with None => true | Some _ => false end
  then float32
  else
    if negb (is_crossfading self) then
      match current_audio self with
      | None => float32
      | Some cur =>
          if current_position self + frame_count <? length cur
          then current_dtype
          else float32
      end
    else float32.

(** [len(output.tobytes())] of the block that [_audio_callback] returns:
    rows, two channels, bytes per element. *)
Definition _audio_callback_nbytes (self : t) (current_dtype : dtype)
           (frame_count : nat) : nat :=
  length (snd (_audio_callback self frame_count)) * 2
  * itemsize (output_dtype self current_dtype frame_count).

End AudioMixer.

(** ** tsp_autodj_player.py: TSPAutoDJPlayer *)

Module TSPAutoDJPlayer.

Definition _calculate_song_compatibility (song1 song2 : SongMetadata) : Q :=
  let key_dist := CamelotWheel.key_distance (key song1) (key song2) in
  let key_score := 1 - key_dist in
  let bpm_dist := BPMDistance.bpm_distance (bpm song1) (bpm song2) in
  let bpm_score := 1 - bpm_dist in
  let energy_diff := Qabs (energy song1 - energy song2) in
  let energy_score := Qmax 0 (1 - energy_diff / (2 # 10)) in
  let compatibility :=
    key_score * (5 # 10) + bpm_score * (35 # 100) + energy_score * (15 # 100) in
  Qmax 0 (Qmin 1 compatibility).

(** The crossfade trigger point that [_run_audio_tour] computes for a song
    and its successor (exact, where the code adds binary64 numbers). *)
Definition crossfade_start_ratio (song next_song : SongMetadata) : Q :=
  (8 # 10) + _calculate_song_compatibility song next_song * (15 # 100).

(** The test tone of [test_audio_setup]: [np.linspace(0, duration, n)] with
    [duration = 2.0] and [n = int(sample_rate * duration)], a sine of 440 Hz
    at 0.3, the same in both channels. *)
Definition test_tone (sample_rate : nat) : AudioMixer.buffer :=
  let n := (sample_rate * 2)%nat in
  map (fun i =>
         let t := (INR i * (2 / INR (n - 1)))%R in
         let x := (sin (2 * PI * 440 * t) * (3 / 10))%R in
         (x, x))
      (seq 0 n).

(** The mixer as [test_audio_setup] leaves it under the lock, and the dtype
    of the buffer it installs: numpy computes the tone in float64 and
    nothing converts it. *)
Definition test_audio_setup (mixer : AudioMixer.t)
  : AudioMixer.t * AudioMixer.dtype :=
  let test_audio := test_tone (AudioMixer.sample_rate mixer) in
  let mixer := AudioMixer.set_current_audio mixer (Some test_audio) in
  let mixer := AudioMixer.set_current_position mixer 0 in
  let mixer := AudioMixer.set_is_playing mixer true in
  (mixer, AudioMixer.float64).

End TSPAutoDJPlayer.

(** * Vocabulary of the properties *)

Import CamelotWheel BPMDistance TSPSolver TSPAutoDJPlayer AudioMixer.

(** Linear arithmetic over the rationals and over the reals. *)
Ltac qlra := Lqa.lra.
Ltac rlra := Lra.lra.
Ltac rnra := Lra.nra.

(** Two tracks that differ only in energy, by 0.1. *)
Definition quiet_song : SongMetadata :=
  mkSong "stems/a" "a" 120 "8A" 0 180.
Definition loud_song : SongMetadata :=
  mkSong "stems/b" "b" 120 "8A" (1 # 10) 180.

Local Open Scope nat_scope.

(** Case analysis on every comparison of naturals in the goal. *)
Ltac cmp_cases :=
  repeat match goal with
         | |- context [Nat.ltb ?a ?b] => destruct (Nat.ltb_spec a b)
         | |- context [Nat.leb ?a ?b] => destruct (Nat.leb_spec a b)
         | |- context [Nat.eqb ?a ?b] => destruct (Nat.eqb_spec a b)
         end;
  simpl; try reflexivity; try lia.

(** A square matrix of side [n]. *)
Definition square (n : nat) (m : matrix) : Prop :=
  length m = n /\ forall (i : nat) (row : list Q),
                    nth_error m i = Some row -> length row = n.

(** What the nested loops leave in cell [(i, j)]. *)
Definition entry (songs : list SongMetadata) (i j : nat) : Q :=
  if i =? j then 0%Q
  else match nth_error songs i, nth_error songs j with
       | Some si, Some sj => _calculate_distance si sj
       | _, _ => 0%Q
       end.



(** A tour all of whose entries are track indices. *)
Definition valid (self : TSPSolver.t) (tour : list nat) : Prop :=
  Forall (fun a => a < n self) tour.

Definition well_formed (self : TSPSolver.t) : Prop :=
  square (n self) (distance_matrix self).

(** The invariant of 2-opt, for a starting tour [t0] of length [d0]:
    [best_distance] is the length of [best_tour], it never exceeds [d0],
    and both tours are rearrangements of [t0]. *)
Definition opt_inv (self : TSPSolver.t) (t0 : list nat) (d0 : Q)
           (st : opt_state) : Prop :=
  Permutation (best_tour st) t0 /\
  Permutation (tour st) t0 /\
  _calculate_tour_distance self (best_tour st) = Ok (best_distance st) /\
  (best_distance st <= d0)%Q.

(** The four tracks of the documented scenario: tempos 120, 122, 90, 125. *)
Definition four_tracks : list SongMetadata :=
  [ mkSong "stems/a" "a" 120 "8A" (1 # 10) 180;
    mkSong "stems/b" "b" 122 "8A" (1 # 10) 200;
    mkSong "stems/c" "c" 90 "2B" (1 # 10) 190;
    mkSong "stems/d" "d" 125 "3A" (1 # 10) 210 ].

Definition current_chunk (self : AudioMixer.t) (samples_needed : nat) : buffer :=
  match current_audio self with
  | Some cur =>
      if current_position self + samples_needed <=? length cur
      then slice cur (current_position self)
                 (current_position self + samples_needed)
      else np_zeros samples_needed
  | None => np_zeros samples_needed
  end.

Definition next_chunk (self : AudioMixer.t) (samples_needed : nat) : buffer :=
  match next_audio self with
  | Some nxt =>
      if samples_needed <=? length nxt
      then slice nxt 0 samples_needed
      else np_zeros samples_needed
  | None => np_zeros samples_needed
  end.

Definition mixed_chunk (self : AudioMixer.t) (samples_needed : nat) : buffer :=
  let fade_progress :=
    (INR (crossfade_position self) / INR (crossfade_samples self))%R in
  add (scale (current_chunk self samples_needed) (1 - fade_progress))
      (scale (next_chunk self samples_needed) fade_progress).

(** The mixer after a pass that does not finish the window. *)
Definition advanced (self : AudioMixer.t) (samples_needed : nat) : AudioMixer.t :=
  AudioMixer.mk (sample_rate self) (current_audio self) (next_audio self)
     (crossfade_samples self) (current_position self + samples_needed)
     (is_crossfading self) (crossfade_position self + samples_needed)
     (master_volume self) (is_playing self).

(** The mixer after the pass that finishes the window. *)
Definition switched (self : AudioMixer.t) (samples_needed : nat) : AudioMixer.t :=
  AudioMixer.mk (sample_rate self) (next_audio self) None
     (crossfade_samples self) samples_needed false 0
     (master_volume self) (is_playing self).

Definition limit (a : buffer) : buffer :=
  map (fun f => (soft_limit (fst f), soft_limit (snd f))) a.

(** The track's buffer with the samples [lo..hi) scaled by [w]. *)
Definition scaled_in_place (cur : buffer) (lo hi : nat) (w : R) : buffer :=
  firstn lo cur ++ scale (slice cur lo hi) w ++ skipn hi cur.

(** A buffer of [k] all-ones frames. *)
Definition ones (k : nat) : buffer := repeat (1%R, 1%R) k.

(** A mixer with a 100-sample window ([sample_rate = 25]) playing a track
    of 200 all-ones frames. *)
Definition playing_ones : AudioMixer.t :=
  fst (play_song (AudioMixer.__init__ 25) (Some (ones 200))).

(** A mixer in the middle of a crossfade, the next track staged. *)
Definition mid_crossfade : AudioMixer.t :=
  AudioMixer.mk 25 (Some (ones 200)) (Some (np_zeros 200)) 100 130 true 30
                (8 / 10)%R true.

(** A crossfade 70 samples into its 100-sample window, asked for 64
    frames. *)
Definition late_crossfade : AudioMixer.t :=
  AudioMixer.mk 25 (Some (ones 200)) (Some (np_zeros 200)) 100 170 true 70
                (8 / 10)%R true.

(** The weight of the current track during one pass of the crossfade loop. *)
Definition current_weight (self : AudioMixer.t) : R :=
  (1 - INR (crossfade_position self) / INR (crossfade_samples self))%R.

(** The documented scenario: all-ones current track, all-zero next track,
    a window of 100 samples, master volume 0.8. *)
Definition scenario : AudioMixer.t :=
  prepare_next_song playing_ones (Some (np_zeros 200)).

(** Positions [p] and [q] of the wheel carry the same key, the same
    number, or the same letter with adjacent numbers. *)
Definition near_on_wheel (p q : Z) : bool :=
  ((q =? p) || (q / 2 =? p / 2)
   || ((q mod 2 =? p mod 2)
       && (((q - p) mod 24 =? 2) || ((p - q) mod 24 =? 2))))%Z.

(** The entry [distance_matrix[a][b]] of the solver (0 outside it). *)
Definition dist (self : TSPSolver.t) (a b : nat) : Q :=
  match cell (distance_matrix self) a b with
  | Ok q => q
  | Raise _ => 0%Q
  end.

(** The edges of a tour read as a cycle: each track with its successor, the
    last one with the first. *)
Definition cycle_edges (tour : list nat) : list (nat * nat) :=
  combine tour (tl tour ++ firstn 1 tour).

(** The lengths of the edges, added to [total] from left to right. *)
Definition sum_edges (self : TSPSolver.t) (edges : list (nat * nat)) (total : Q)
  : Q :=
  fold_left (fun total e => (total + dist self (fst e) (snd e))%Q) edges total.

(** A nearest-neighbour chain from [current]: every track is, among the
    tracks that follow the previous one, the nearest to it, and of several
    nearest ones the one with the smallest index. *)
Fixpoint greedy (self : TSPSolver.t) (current : nat) (rest : list nat) : Prop :=
  match rest with
  | [] => True
  | b :: rest' =>
      (forall c, In c rest' ->
                 (dist self current b < dist self current c)%Q \/
                 ((dist self current b == dist self current c)%Q /\ b < c)) /\
      greedy self b rest'
  end.

(** The mixer after the device has asked for blocks of the given sizes,
    one callback after the other. *)
Definition render_all (self : AudioMixer.t) (frame_counts : list nat)
  : AudioMixer.t :=
  fold_left (fun s frame_count => fst (_audio_callback s frame_count))
            frame_counts self.

(** What the device hears: the blocks of successive callbacks, one after
    the other. *)
Fixpoint played (self : AudioMixer.t) (frame_counts : list nat) : buffer :=
  match frame_counts with
  | [] => []
  | frame_count :: rest =>
      snd (_audio_callback self frame_count)
      ++ played (fst (_audio_callback self frame_count)) rest
  end.

(** The lengths of the stems that were decoded, in the order of the stems. *)
Fixpoint decoded_lengths (stems : list (R * stem_file)) : list nat :=
  match stems with
  | [] => []
  | (_, Decoded stem_audio) :: rest => length stem_audio :: decoded_lengths rest
  | _ :: rest => decoded_lengths rest
  end.

(** One pass of the loop of [load_song_stems] over the stems. *)
Definition stem_step (acc : option buffer * nat) (stem : R * stem_file)
  : option buffer * nat :=
  match snd stem with
  | Missing => acc
  | Unreadable => acc
  | Decoded stem_audio =>
      let stem_audio := scale stem_audio (fst stem) in
      match fst acc with
      | None => (Some stem_audio, snd acc + 1)
      | Some mixed_audio =>
          let min_len := Nat.min (length mixed_audio) (length stem_audio) in
          (Some (add (slice mixed_audio 0 min_len)
                     (slice stem_audio 0 min_len)),
           snd acc + 1)
      end
  end.

(** The scenario with a current track of only 60 frames. *)
Definition short_scenario : AudioMixer.t :=
  prepare_next_song (fst (play_song (AudioMixer.__init__ 25) (Some (ones 60))))
                    (Some (np_zeros 200)).

(** * Properties *)

Local Open Scope Q_scope.

(** ** Tempo distance on the documented inputs *)

Example bpm_distance_same : bpm_distance 120 120 == 0.
Proof. vm_compute. reflexivity. Qed.

(** The 3:4 harmonic ratio matches the pair (100, 137): the relative error
    of 100/137 against 3/4 is 11/411, below the tolerance. *)
Example bpm_distance_100_137_value : bpm_distance 100 137 == 275 # 822.
Proof. vm_compute. reflexivity. Qed.

(** C5, as stated: the first three values hold, the fourth does not. *)
Lemma bpm_distance_examples_as_stated_fail :
  ~ (bpm_distance 120 120 == 0 /\
     bpm_distance 120 240 == 0 /\
     bpm_distance 120 121 == ((121 # 120) - 1) / (8 # 100) /\
     bpm_distance 100 137 == 1).
Proof.
  intros (_ & _ & _ & H). vm_compute in H. discriminate H.
Qed.

(** C5, amended: equal tempos are at distance 0; 120 against 240 is at
    distance 0 through the 1:2 harmonic ratio; 120 against 121 is in the
    direct-tolerance branch, at ((121/120) - 1) / 0.08; and 100 against 137 is
    matched by the 3:4 harmonic ratio, at (|100/137 - 3/4| / (3/4)) / 0.08,
    which is 275/822 and not 1. *)
Theorem bpm_distance_examples :
  bpm_distance 120 120 == 0 /\
  bpm_distance 120 240 == 0 /\
  bpm_distance 120 121 == ((121 # 120) - 1) / (8 # 100) /\
  bpm_distance 100 137 == (Qabs ((100 # 137) - (3 # 4)) / (3 # 4)) / (8 # 100) /\
  ~ bpm_distance 100 137 == 1.
Proof.
  repeat split; try (vm_compute; reflexivity).
  intro H. vm_compute in H. discriminate H.
Qed.

(** ** The crossfade compatibility score *)

Lemma Qmax_complement (x : Q) : Qmax 0 (1 - x) == 1 - Qmin x 1.
Proof.
  destruct (Qlt_le_dec 1 x) as [H | H].
  - rewrite Q.max_l, Q.min_r; qlra.
  - rewrite Q.max_r, Q.min_l; qlra.
Qed.

(** C7, as stated, fails: two tracks that differ only in energy, by 0.1,
    score 0.925 and not 0.85. *)
Lemma song_compatibility_as_stated_fails :
  ~ (_calculate_song_compatibility quiet_song loud_song ==
       (5 # 10) * (1 - CamelotWheel.key_distance (key quiet_song) (key loud_song))
     + (35 # 100) * (1 - bpm_distance (bpm quiet_song) (bpm loud_song))
     + (15 # 100) * (1 - Qmin (Qabs (energy quiet_song - energy loud_song) / (1 # 10)) 1)).
Proof.
  intro H. vm_compute in H. discriminate H.
Qed.

(** C7, amended: the score is
    0.5*(1-keyDistance) + 0.35*(1-bpmDistance) + 0.15*(1-e), clamped to [0,1],
    where the energy term e is min(|e1-e2| / 0.2, 1): the energy difference
    is normalised by 0.2 here, not by the 0.1 of the tour distance. *)
Theorem song_compatibility_formula (song1 song2 : SongMetadata) :
  _calculate_song_compatibility song1 song2 ==
    Qmax 0 (Qmin 1
      ((5 # 10) * (1 - CamelotWheel.key_distance (key song1) (key song2))
       + (35 # 100) * (1 - bpm_distance (bpm song1) (bpm song2))
       + (15 # 100) * (1 - Qmin (Qabs (energy song1 - energy song2) / (2 # 10)) 1))).
Proof.
  unfold _calculate_song_compatibility.
  rewrite Qmax_complement.
  apply Q.max_compat; [reflexivity |].
  apply Q.min_compat; [reflexivity |].
  ring.
Qed.

(** ** Loops and arrays *)

Local Open Scope nat_scope.

Lemma bind_Ok {A B : Type} (c : res A) (k : A -> res B) (b : B) :
  bind c k = Ok b -> exists a, c = Ok a /\ k a = Ok b.
Proof.
  destruct c as [a | e]; simpl; intro H; [exists a; auto | discriminate].
Qed.

(** A loop invariant indexed by the loop variable. *)
Lemma for_each_seq_inv {St : Type} (Inv : nat -> St -> Prop)
      (body : nat -> St -> res St) (len : nat) :
  forall (lo : nat) (s : St),
    Inv lo s ->
    (forall k s0, lo <= k < lo + len -> Inv k s0 ->
                  exists s1, body k s0 = Ok s1 /\ Inv (S k) s1) ->
    exists s', for_each (seq lo len) body s = Ok s' /\ Inv (lo + len) s'.
Proof.
  induction len as [| len IH]; intros lo s Hs Hbody; simpl.
  - exists s. rewrite Nat.add_0_r. auto.
  - destruct (Hbody lo s) as (s1 & E1 & I1); [lia | assumption |].
    rewrite E1. simpl.
    destruct (IH (S lo) s1 I1) as (s' & E' & I').
    + intros k s0 Hk. apply Hbody. lia.
    + exists s'. split; [assumption |].
      replace (lo + S len) with (S lo + len) by lia. assumption.
Qed.

Lemma index_Ok {A : Type} (l : list A) (i : nat) (a : A) :
  index l i = Ok a <-> nth_error l i = Some a.
Proof.
  unfold index. destruct (nth_error l i); split; intro H; congruence.
Qed.

Lemma index_lt {A : Type} (l : list A) (i : nat) :
  i < length l -> exists a, index l i = Ok a.
Proof.
  intro H. unfold index.
  destruct (nth_error l i) as [a |] eqn:E; [eauto |].
  apply nth_error_None in E. lia.
Qed.

Lemma update_length {A : Type} (l : list A) :
  forall (i : nat) (v : A), length (update l i v) = length l.
Proof.
  induction l as [| h l IH]; intros [| i] v; simpl; auto.
Qed.

Lemma nth_error_update {A : Type} (l : list A) :
  forall (i k : nat) (v : A),
    i < length l ->
    nth_error (update l i v) k = if k =? i then Some v else nth_error l k.
Proof.
  induction l as [| h l IH]; intros i k v Hi; simpl in Hi; [lia |].
  destruct i as [| i], k as [| k]; simpl; auto.
  apply IH. lia.
Qed.

Lemma zeros_square (n : nat) : square n (zeros n n).
Proof.
  split; [apply repeat_length |].
  intros i row H. apply nth_error_In, repeat_spec in H. subst.
  apply repeat_length.
Qed.

Lemma zeros_cell (n i j : nat) : i < n -> j < n -> cell (zeros n n) i j = Ok 0%Q.
Proof.
  intros Hi Hj. unfold cell, zeros, index.
  rewrite nth_error_repeat by assumption. simpl.
  rewrite nth_error_repeat by assumption. reflexivity.
Qed.

Lemma cell_square (n : nat) (m : matrix) (i j : nat) :
  square n m -> i < n -> j < n -> exists q, cell m i j = Ok q.
Proof.
  intros [Hl Hr] Hi Hj. unfold cell.
  destruct (index_lt m i) as (row & E); [lia |].
  rewrite E. simpl. apply index_lt.
  apply index_Ok in E. rewrite (Hr _ _ E). assumption.
Qed.

Lemma set_cell_spec (n : nat) (m : matrix) (i j : nat) (v : Q) :
  square n m -> i < n -> j < n ->
  exists m', set_cell m i j v = Ok m' /\ square n m' /\
             forall a b, cell m' a b =
                         if (a =? i) && (b =? j) then Ok v else cell m a b.
Proof.
  intros [Hl Hr] Hi Hj. unfold set_cell.
  destruct (index_lt m i) as (row & E); [lia |].
  rewrite E. simpl. apply index_Ok in E.
  pose proof (Hr _ _ E) as Hrow.
  assert (Hj' : (j <? length row) = true) by (apply Nat.ltb_lt; lia).
  rewrite Hj'. eexists. split; [reflexivity |]. split.
  - split; [rewrite update_length; assumption |].
    intros k r Hk. rewrite nth_error_update in Hk by lia.
    destruct (k =? i).
    + injection Hk as <-. rewrite update_length. assumption.
    + eauto.
  - intros a b. unfold cell, index.
    rewrite nth_error_update by lia.
    destruct (a =? i) eqn:Ea; simpl.
    + apply Nat.eqb_eq in Ea. subst a. rewrite E. simpl.
      rewrite nth_error_update by lia.
      destruct (b =? j); reflexivity.
    + reflexivity.
Qed.

(** ** The distance matrix *)

Lemma build_distance_matrix_spec (songs : list SongMetadata) :
  exists m,
    _build_distance_matrix songs (length songs) = Ok m /\
    square (length songs) m /\
    forall a b, a < length songs -> b < length songs ->
                cell m a b = Ok (entry songs a b).
Proof.
  set (n := length songs).
  unfold _build_distance_matrix, range. rewrite Nat.sub_0_r.
  pose (Outer := fun (i : nat) (m : matrix) =>
          square n m /\
          forall a b, a < n -> b < n ->
                      cell m a b = Ok (if a <? i then entry songs a b else 0%Q)).
  destruct (for_each_seq_inv Outer
              (fun i matrix =>
                 for_each (seq 0 n)
                   (fun j matrix =>
                      if i =? j then set_cell matrix i j 0%Q
                      else
                        si <- index songs i ;;
                        sj <- index songs j ;;
                        set_cell matrix i j (_calculate_distance si sj))
                   matrix)
              n 0 (zeros n n)) as (m & E & Hsq & Hcells).
  - split; [apply zeros_square |].
    intros a b Ha Hb. simpl. apply zeros_cell; assumption.
  - intros i m0 Hi [Hsq0 Hc0].
    pose (Inner := fun (k : nat) (m : matrix) =>
            square n m /\
            forall a b, a < n -> b < n ->
                        cell m a b =
                        Ok (if (a <? i) || ((a =? i) && (b <? k))
                            then entry songs a b else 0%Q)).
    destruct (for_each_seq_inv Inner
                (fun j matrix =>
                   if i =? j then set_cell matrix i j 0%Q
                   else
                     si <- index songs i ;;
                     sj <- index songs j ;;
                     set_cell matrix i j (_calculate_distance si sj))
                n 0 m0) as (m1 & E1 & Hsq1 & Hc1).
    + split; [assumption |]. intros a b Ha Hb.
      rewrite (Hc0 a b Ha Hb). simpl. rewrite andb_false_r, orb_false_r.
      reflexivity.
    + intros j m2 Hj [Hsq2 Hc2].
      assert (Hstep : forall v, entry songs i j = v ->
                 exists s1, set_cell m2 i j v = Ok s1 /\ Inner (S j) s1).
      { intros v Hv.
        destruct (set_cell_spec n m2 i j v Hsq2) as (m3 & E3 & Hsq3 & Hc3);
          [lia | lia |].
        exists m3. split; [assumption |]. split; [assumption |].
        intros a b Ha Hb. rewrite Hc3, (Hc2 a b Ha Hb).
        destruct (Nat.eqb_spec a i) as [-> | Ea],
                 (Nat.eqb_spec b j) as [-> | Eb]; simpl;
          rewrite <- ?Hv; cmp_cases. }
      destruct (i =? j) eqn:Eij.
      * apply Hstep. unfold entry. rewrite Eij. reflexivity.
      * destruct (index_lt songs i) as (si & Esi); [fold n; lia |].
        destruct (index_lt songs j) as (sj & Esj); [fold n; lia |].
        rewrite Esi, Esj. simpl. apply Hstep.
        unfold entry. rewrite Eij.
        apply index_Ok in Esi, Esj. rewrite Esi, Esj. reflexivity.
    + exists m1. split; [exact E1 |]. split; [assumption |].
      intros a b Ha Hb. rewrite (Hc1 a b Ha Hb). simpl.
      rewrite (proj2 (Nat.ltb_lt b n)) by lia. rewrite andb_true_r.
      cmp_cases.
  - exists m. split; [exact E |]. split; [assumption |].
    intros a b Ha Hb. rewrite (Hcells a b Ha Hb). simpl.
    rewrite (proj2 (Nat.ltb_lt a n)) by lia. reflexivity.
Qed.

Lemma key_distance_sym (k1 k2 : string) : key_distance k1 k2 = key_distance k2 k1.
Proof.
  unfold key_distance. rewrite (String.eqb_sym k2 k1).
  destruct (String.eqb k1 k2); [reflexivity |].
  destruct (lookup k1 WHEEL_POSITIONS) as [p1 |],
           (lookup k2 WHEEL_POSITIONS) as [p2 |]; try reflexivity.
  cbv zeta. rewrite (Z.eqb_sym (p2 mod 2) (p1 mod 2)).
  replace (Z.abs (p2 / 2 - p1 / 2)) with (Z.abs (p1 / 2 - p2 / 2)) by lia.
  reflexivity.
Qed.







(** ** Tours *)

Lemma index_Forall {A : Type} (P : A -> Prop) (l : list A) (i : nat) :
  Forall P l -> i < length l -> exists a, index l i = Ok a /\ P a.
Proof.
  intros HP Hi. destruct (index_lt l i Hi) as (a & E).
  exists a. split; [assumption |].
  apply index_Ok, nth_error_In in E.
  rewrite Forall_forall in HP. auto.
Qed.

Lemma calculate_tour_distance_ok (self : TSPSolver.t) (tour : list nat) :
  well_formed self -> valid self tour ->
  exists d, _calculate_tour_distance self tour = Ok d.
Proof.
  intros Hsq Hv. unfold _calculate_tour_distance, range.
  rewrite Nat.sub_0_r.
  destruct (for_each_seq_inv (fun _ (_ : Q) => True)
              (fun i total =>
                 let j := (i + 1) mod length tour in
                 a <- index tour i ;;
                 b <- index tour j ;;
                 d <- cell (distance_matrix self) a b ;;
                 Ok (total + d)%Q)
              (length tour) 0 0%Q I) as (d & E & _).
  - intros k total Hk _. cbv zeta.
    destruct (index_Forall _ tour k Hv) as (a & Ea & La); [lia |].
    destruct (index_Forall _ tour ((k + 1) mod length tour) Hv)
      as (b & Eb & Lb); [apply Nat.mod_upper_bound; lia |].
    destruct (cell_square _ _ a b Hsq La Lb) as (q & Eq).
    rewrite Ea, Eb. simpl. rewrite Eq. simpl. eauto.
  - eauto.
Qed.

Lemma reverse_slice_perm (tour : list nat) (i j : nat) :
  i <= j -> Permutation (reverse_slice tour i j) tour.
Proof.
  intro Hij. unfold reverse_slice.
  rewrite <- (firstn_skipn i tour) at 4.
  apply Permutation_app_head.
  rewrite <- (firstn_skipn (j - i) (skipn i tour)) at 2.
  rewrite skipn_skipn. replace (j - i + i) with j by lia.
  apply Permutation_app_tail. symmetry. apply Permutation_rev.
Qed.

Lemma valid_perm (self : TSPSolver.t) (t1 t2 : list nat) :
  Permutation t1 t2 -> valid self t2 -> valid self t1.
Proof.
  intros HP Hv. unfold valid in *. rewrite HP. assumption.
Qed.

Lemma Qlt_bool_lt (x y : Q) : Qlt_bool x y = true -> (x < y)%Q.
Proof.
  unfold Qlt_bool. intro H. apply negb_true_iff in H.
  apply Qnot_le_lt. intro Hle. apply Qle_bool_iff in Hle. congruence.
Qed.

Section TwoOpt.

Variable self : TSPSolver.t.
Variable t0 : list nat.
Variable d0 : Q.
Hypothesis Hwf : well_formed self.
Hypothesis Hvalid : valid self t0.

Lemma scan_j_inv (i : nat) (js : list nat) :
  forall st,
    Forall (fun j => i <= j) js ->
    opt_inv self t0 d0 st ->
    exists st', scan_j self i js st = Ok st' /\ opt_inv self t0 d0 st'.
Proof.
  induction js as [| j js IH]; intros st Hjs Hst; simpl.
  - eauto.
  - inversion Hjs as [| ? ? Hj Hjs']; subst.
    destruct (j - i =? 1); [apply IH; assumption |].
    destruct Hst as (Hb & Ht & Hd & Hle).
    assert (Hp : Permutation (reverse_slice (tour st) i j) t0).
    { rewrite reverse_slice_perm by assumption. assumption. }
    destruct (calculate_tour_distance_ok self (reverse_slice (tour st) i j) Hwf)
      as (d & Ed); [apply (valid_perm self _ t0); assumption |].
    rewrite Ed. simpl.
    destruct (Qlt_bool d (best_distance st)) eqn:Elt.
    + eexists. split; [reflexivity |].
      apply Qlt_bool_lt in Elt.
      repeat split; simpl; try assumption. qlra.
    + apply IH; [assumption |]. repeat split; assumption.
Qed.

Lemma scan_i_inv (ixs : list nat) :
  forall st,
    opt_inv self t0 d0 st ->
    exists st', scan_i self ixs st = Ok st' /\ opt_inv self t0 d0 st'.
Proof.
  induction ixs as [| i ixs IH]; intros st Hst; simpl.
  - eauto.
  - destruct (scan_j_inv i (range (i + 1) (length (tour st))) st)
      as (st' & E & Hst'); [| assumption |].
    + apply Forall_forall. intros j Hj. unfold range in Hj.
      apply in_seq in Hj. lia.
    + rewrite E. simpl. destruct (improved st'); eauto.
Qed.

Lemma iterations_inv (k : nat) :
  forall st,
    opt_inv self t0 d0 st ->
    exists st', iterations k self st = Ok st' /\ opt_inv self t0 d0 st'.
Proof.
  induction k as [| k IH]; intros st Hst; simpl.
  - eauto.
  - destruct (scan_i_inv (range 1 (length (tour st) - 2))
                (mkOpt (best_tour st) (best_distance st) (tour st) false))
      as (st1 & E & Hst1); [exact Hst |].
    rewrite E. simpl. destruct (improved st1); simpl; eauto.
Qed.

End TwoOpt.

Lemma improve_2opt_spec (self : TSPSolver.t) (tour : list nat) (k : nat) :
  well_formed self -> valid self tour ->
  exists out d_in d_out,
    improve_2opt self tour k = Ok out /\
    Permutation out tour /\
    _calculate_tour_distance self tour = Ok d_in /\
    _calculate_tour_distance self out = Ok d_out /\
    (d_out <= d_in)%Q.
Proof.
  intros Hwf Hv. unfold improve_2opt.
  destruct (calculate_tour_distance_ok self tour Hwf Hv) as (d & Ed).
  rewrite Ed. simpl.
  destruct (iterations_inv self tour d Hwf Hv k (mkOpt tour d tour false))
    as (st & E & Hb & _ & Hd & Hle).
  { repeat split; simpl; try reflexivity; try assumption. apply Qle_refl. }
  rewrite E. simpl.
  exists (best_tour st), d, (best_distance st). auto.
Qed.

Lemma init_spec (songs : list SongMetadata) :
  exists self,
    TSPSolver.__init__ songs = Ok self /\ n self = length songs /\ well_formed self.
Proof.
  unfold TSPSolver.__init__.
  destruct (build_distance_matrix_spec songs) as (m & E & Hsq & _).
  rewrite E. simpl. eexists. split; [reflexivity |]. split; [reflexivity |].
  exact Hsq.
Qed.

Lemma set_remove_spec (x : nat) (s : list nat) :
  In x s ->
  exists s', set_remove x s = Ok s' /\ Permutation s (x :: s') /\
             length s = S (length s').
Proof.
  induction s as [| y s IH]; intro Hin; simpl; [contradiction |].
  destruct (Nat.eqb_spec x y) as [-> | Hne].
  - exists s. auto.
  - destruct IH as (s' & E & Hp & Hl); [destruct Hin; congruence |].
    rewrite E. simpl. exists (y :: s'). split; [reflexivity |]. split.
    + rewrite Hp. apply perm_swap.
    + simpl. congruence.
Qed.

Section NearestNeighbor.

Variable self : TSPSolver.t.
Hypothesis Hwf : well_formed self.

(** The scan never fails on track indices, and what it reports is either
    what it started with or one of the scanned indices. *)
Lemma nearest_scan_spec (current : nat) (unvisited : list nat) :
  current < n self ->
  valid self unvisited ->
  forall nd ns,
  exists nd' ns',
    nearest_scan self current unvisited nd ns = Ok (nd', ns') /\
    (ns' = ns \/ exists s, ns' = Some s /\ In s unvisited).
Proof.
  intros Hc. induction unvisited as [| x u IH]; intros Hv nd ns; simpl.
  - eauto.
  - inversion Hv as [| ? ? Hx Hu]; subst.
    destruct (cell_square _ _ current x Hwf Hc Hx) as (d & Ed).
    rewrite Ed. simpl.
    destruct (lt_inf d nd).
    + destruct (IH Hu (Some d) (Some x)) as (nd' & ns' & E & [-> | (s & -> & Hs)]);
        rewrite E; eauto 8.
    + destruct (IH Hu nd ns) as (nd' & ns' & E & [-> | (s & -> & Hs)]);
        rewrite E; eauto 8.
Qed.

(** From [(inf, None)] a non-empty scan reports one of its elements. *)
Lemma nearest_scan_finds (current : nat) (unvisited : list nat) :
  current < n self ->
  valid self unvisited ->
  unvisited <> [] ->
  exists nd s,
    nearest_scan self current unvisited None None = Ok (nd, Some s) /\
    In s unvisited.
Proof.
  intros Hc Hv Hne. destruct unvisited as [| x u]; [congruence |].
  inversion Hv as [| ? ? Hx Hu]; subst. simpl.
  destruct (cell_square _ _ current x Hwf Hc Hx) as (d & Ed).
  rewrite Ed. simpl.
  destruct (nearest_scan_spec current u Hc Hu (Some d) (Some x))
    as (nd' & ns' & E & [-> | (s & -> & Hs)]); rewrite E; eauto 8.
Qed.

Lemma nn_while_spec (fuel : nat) :
  forall tour unvisited current,
    length unvisited <= fuel ->
    current < n self ->
    valid self unvisited ->
    exists out,
      nn_while fuel self tour unvisited current = Ok out /\
      Permutation out (tour ++ unvisited).
Proof.
  induction fuel as [| fuel IH]; intros tour unvisited current Hl Hc Hv.
  - destruct unvisited; simpl in Hl; [| lia].
    simpl. exists tour. rewrite app_nil_r. auto.
  - destruct unvisited as [| x u] eqn:Eu.
    + simpl. exists tour. rewrite app_nil_r. auto.
    + rewrite <- Eu in *.
      destruct (nearest_scan_finds current unvisited Hc Hv)
        as (nd & s & E & Hs); [congruence |].
      destruct (set_remove_spec s unvisited Hs) as (u' & Er & Hp & Hlen).
      assert (Hv' : valid self (s :: u')) by (apply (valid_perm self _ unvisited);
                                              [symmetry |]; assumption).
      pose proof (Forall_inv Hv') as Hs'.
      pose proof (Forall_inv_tail Hv') as Hu'. simpl in Hs'.
      destruct (IH (tour ++ [s]) u' s) as (out & Eo & Ho);
        [lia | assumption | assumption |].
      exists out. split.
      * rewrite Eu at 1. cbn [nn_while]. rewrite <- Eu.
        rewrite E. simpl. rewrite Er. simpl. exact Eo.
      * rewrite Ho, <- app_assoc. simpl.
        apply Permutation_app_head. symmetry. assumption.
Qed.

Lemma solve_nearest_neighbor_spec (start_index : nat) :
  start_index < n self ->
  exists tour,
    solve_nearest_neighbor self start_index = Ok tour /\
    Permutation tour (seq 0 (n self)).
Proof.
  intro Hs. unfold solve_nearest_neighbor, range. rewrite Nat.sub_0_r.
  destruct (set_remove_spec start_index (seq 0 (n self)))
    as (u & Er & Hp & Hl); [apply in_seq; lia |].
  rewrite Er. simpl.
  assert (Hv : valid self (start_index :: u)).
  { apply (valid_perm self _ (seq 0 (n self))); [symmetry; assumption |].
    apply Forall_forall. intros a Ha. apply in_seq in Ha. lia. }
  pose proof (Forall_inv_tail Hv) as Hu.
  destruct (nn_while_spec (length u) [start_index] u start_index)
    as (out & E & Ho); [lia | assumption | assumption |].
  exists out. split; [assumption |].
  rewrite Ho. simpl. symmetry. assumption.
Qed.

End NearestNeighbor.

Lemma solve_spec (self : TSPSolver.t) :
  well_formed self ->
  exists tour,
    solve self = Ok (Some tour) /\
    Permutation tour (seq 0 (n self)) /\
    match n self with
    | 0 => tour = []
    | 1 => tour = [0]
    | _ => True
    end.
Proof.
  intro Hwf. unfold solve.
  destruct (Nat.leb_spec (n self) 1) as [Hle | Hgt].
  - exists (range 0 (n self)). unfold range. rewrite Nat.sub_0_r.
    split; [reflexivity |]. split; [reflexivity |].
    destruct (n self) as [| [| k]]; try reflexivity; try lia.
  - unfold range. rewrite Nat.sub_0_r.
    pose (Inv := fun (k : nat) (acc : option (list nat) * option Q) =>
            (k = 0 /\ acc = (None, None)) \/
            (exists t d, acc = (Some t, Some d) /\
                         Permutation t (seq 0 (n self)))).
    destruct (for_each_seq_inv Inv
                (fun start (acc : option (list nat) * option Q) =>
                   tour <- solve_nearest_neighbor self start ;;
                   tour <- improve_2opt self tour max_iterations_default ;;
                   distance <- _calculate_tour_distance self tour ;;
                   if lt_inf distance (snd acc)
                   then Ok (Some tour, Some distance)
                   else Ok acc)
                (Nat.min 5 (n self)) 0 (None, None))
      as (acc & E & Hacc).
    + left. auto.
    + intros k acc Hk Hacc.
      destruct (solve_nearest_neighbor_spec self Hwf k) as (nn & Enn & Hnn);
        [lia |].
      assert (Hv : valid self nn).
      { apply (valid_perm self _ (seq 0 (n self))); [assumption |].
        apply Forall_forall. intros a Ha. apply in_seq in Ha. lia. }
      destruct (improve_2opt_spec self nn max_iterations_default Hwf Hv)
        as (out & d_in & d_out & Eo & Hp & _ & Ed & _).
      rewrite Enn. simpl. rewrite Eo. simpl. rewrite Ed. simpl.
      assert (Hout : Permutation out (seq 0 (n self))) by (rewrite Hp; assumption).
      destruct Hacc as [[-> ->] | (t & d & -> & Ht)]; simpl.
      * eexists. split; [reflexivity |]. right. eauto.
      * destruct (Qlt_bool d_out d); eexists; (split; [reflexivity |]);
          right; eauto.
    + rewrite E. simpl.
      destruct Hacc as [[H0 _] | (t & d & -> & Ht)]; [lia |].
      exists t. simpl. split; [reflexivity |]. split; [assumption |].
      destruct (n self) as [| [| k]]; try lia; exact I.
Qed.

(** ** The tour solver *)

(** C3: for every list of N track records, [solve] returns a tour that is a
    rearrangement of 0..N-1: N entries, none repeated, every index present;
    for N = 0 it is the empty list and for N = 1 the single index 0. *)
Theorem solve_returns_permutation (songs : list SongMetadata) :
  exists self tour,
    TSPSolver.__init__ songs = Ok self /\
    solve self = Ok (Some tour) /\
    Permutation tour (seq 0 (length songs)) /\
    NoDup tour /\
    length tour = length songs /\
    match length songs with
    | 0 => tour = []
    | 1 => tour = [0]
    | _ => True
    end.
Proof.
  destruct (init_spec songs) as (self & E & Hn & Hwf).
  destruct (solve_spec self Hwf) as (tour & Es & Hp & Ht).
  rewrite Hn in Hp, Ht.
  exists self, tour.
  split; [assumption |]. split; [assumption |]. split; [assumption |].
  split; [| split; [| assumption]].
  - apply (Permutation_NoDup (l := seq 0 (length songs)));
      [symmetry; assumption | apply seq_NoDup].
  - rewrite (Permutation_length Hp). apply length_seq.
Qed.

(** C4: for every input tour made of track indices, [improve_2opt] returns
    a tour whose cyclic total distance is at most that of the input tour,
    whatever the iteration cap. *)
Theorem improve_2opt_not_longer
        (songs : list SongMetadata) (tour : list nat) (max_iterations : nat) :
  Forall (fun a => a < length songs) tour ->
  exists self out d_in d_out,
    TSPSolver.__init__ songs = Ok self /\
    improve_2opt self tour max_iterations = Ok out /\
    _calculate_tour_distance self tour = Ok d_in /\
    _calculate_tour_distance self out = Ok d_out /\
    (d_out <= d_in)%Q.
Proof.
  intro Hv.
  destruct (init_spec songs) as (self & E & Hn & Hwf).
  assert (Hv' : valid self tour) by (unfold valid; rewrite Hn; assumption).
  destruct (improve_2opt_spec self tour max_iterations Hwf Hv')
    as (out & d_in & d_out & Eo & _ & Ei & Ed & Hle).
  exists self, out, d_in, d_out. auto.
Qed.

Lemma improve_2opt_not_longer_witness :
  exists self out d_in d_out,
    TSPSolver.__init__ four_tracks = Ok self /\
    improve_2opt self [0; 1; 3; 2] 1000 = Ok out /\
    _calculate_tour_distance self [0; 1; 3; 2] = Ok d_in /\
    _calculate_tour_distance self out = Ok d_out /\
    (d_out <= d_in)%Q.
Proof.
  apply (improve_2opt_not_longer four_tracks [0; 1; 3; 2] 1000).
  repeat constructor.
Defined.

(** The same bound for the tour that nearest-neighbour builds from any
    start index. *)
Lemma improve_2opt_after_nearest_neighbor
      (songs : list SongMetadata) (start max_iterations : nat) :
  start < length songs ->
  exists self nn out d_nn d_out,
    TSPSolver.__init__ songs = Ok self /\
    solve_nearest_neighbor self start = Ok nn /\
    improve_2opt self nn max_iterations = Ok out /\
    _calculate_tour_distance self nn = Ok d_nn /\
    _calculate_tour_distance self out = Ok d_out /\
    (d_out <= d_nn)%Q.
Proof.
  intro Hs.
  destruct (init_spec songs) as (self & E & Hn & Hwf).
  destruct (solve_nearest_neighbor_spec self Hwf start) as (nn & Enn & Hnn);
    [lia |].
  assert (Hv : valid self nn).
  { apply (valid_perm self _ (seq 0 (n self))); [assumption |].
    apply Forall_forall. intros a Ha. apply in_seq in Ha. lia. }
  destruct (improve_2opt_spec self nn max_iterations Hwf Hv)
    as (out & d_in & d_out & Eo & _ & Ei & Ed & Hle).
  exists self, nn, out, d_in, d_out. auto 10.
Qed.

Example nearest_neighbor_four_tracks :
  (self <- TSPSolver.__init__ four_tracks ;; solve_nearest_neighbor self 0)
  = Ok [0; 1; 3; 2].
Proof. vm_compute. reflexivity. Qed.

(** ** The mixer: arrays *)

Lemma np_zeros_length (k : nat) : length (np_zeros k) = k.
Proof. apply repeat_length. Qed.

Lemma slice_length (a : buffer) (lo hi : nat) :
  length (slice a lo hi) = Nat.min (hi - lo) (length a - lo).
Proof.
  unfold slice. rewrite length_firstn, length_skipn. reflexivity.
Qed.

Lemma scale_length (a : buffer) (w : R) : length (scale a w) = length a.
Proof. apply length_map. Qed.

Lemma add_length (a b : buffer) :
  length (add a b) = Nat.min (length a) (length b).
Proof. unfold add. rewrite length_map, length_combine. reflexivity. Qed.

Lemma assign_ok (a : buffer) (lo hi : nat) (v : buffer) :
  lo <= hi -> hi <= length a -> length v = hi - lo ->
  assign a lo hi v = Ok (firstn lo a ++ v ++ skipn hi a) /\
  length (firstn lo a ++ v ++ skipn hi a) = length a.
Proof.
  intros H1 H2 H3. unfold assign. rewrite slice_length.
  replace (Nat.min (hi - lo) (length a - lo) =? length v) with true
    by (symmetry; apply Nat.eqb_eq; lia).
  split; [reflexivity |].
  rewrite !length_app, length_firstn, length_skipn. lia.
Qed.

(** Reading back the part of an array that was just overwritten. *)
Lemma slice_splice (a v : buffer) (lo : nat) (rest : buffer) :
  lo <= length a ->
  slice (firstn lo a ++ v ++ rest) lo (lo + length v) = v.
Proof.
  intro H. unfold slice.
  rewrite skipn_app, length_firstn.
  replace (lo - Nat.min lo (length a)) with 0 by lia.
  rewrite skipn_all2 by (rewrite length_firstn; lia). simpl.
  replace (lo + length v - lo) with (length v) by lia.
  rewrite firstn_app, Nat.sub_diag, firstn_all. simpl.
  apply app_nil_r.
Qed.

Lemma tanh_0 : tanh 0 = 0%R.
Proof. unfold tanh. rewrite sinh_0. unfold Rdiv. apply Rmult_0_l. Qed.

Lemma soft_limit_0 : soft_limit 0 = 0%R.
Proof.
  unfold soft_limit. rewrite Rmult_0_l, tanh_0. apply Rmult_0_l.
Qed.

(** Gain and limiter keep silence silent. *)
Lemma limit_scale_zeros (k : nat) (w : R) :
  map (fun f => (soft_limit (fst f), soft_limit (snd f))) (scale (np_zeros k) w)
  = np_zeros k.
Proof.
  unfold np_zeros, scale. induction k as [| k IH]; simpl; [reflexivity |].
  rewrite IH, Rmult_0_l, soft_limit_0. reflexivity.
Qed.

(** ** The mixer: one pass of the crossfade loop *)

Lemma crossfade_while_pass (fuel frame_count : nat) (self : AudioMixer.t)
      (output : buffer) (samples_generated : nat) :
  crossfade_while (S fuel) frame_count self output samples_generated =
  if samples_generated <? frame_count then
    let samples_needed :=
      Nat.min (frame_count - samples_generated)
              (crossfade_samples self - crossfade_position self) in
    if samples_needed <=? 0 then Ok (self, output)
    else
      output' <- assign output samples_generated
                   (samples_generated + samples_needed)
                   (mixed_chunk self samples_needed) ;;
      if crossfade_samples self <=? crossfade_position self + samples_needed
      then Ok (switched self samples_needed, output')
      else crossfade_while fuel frame_count (advanced self samples_needed)
                           output' (samples_generated + samples_needed)
  else Ok (self, output).
Proof. reflexivity. Qed.

Lemma chunk_lengths (self : AudioMixer.t) (k : nat) :
  length (current_chunk self k) = k /\ length (next_chunk self k) = k /\
  length (mixed_chunk self k) = k.
Proof.
  assert (H1 : length (current_chunk self k) = k).
  { unfold current_chunk. destruct (current_audio self) as [cur |];
      [| apply np_zeros_length].
    destruct (Nat.leb_spec (current_position self + k) (length cur));
      [rewrite slice_length; lia | apply np_zeros_length]. }
  assert (H2 : length (next_chunk self k) = k).
  { unfold next_chunk. destruct (next_audio self) as [nxt |];
      [| apply np_zeros_length].
    destruct (Nat.leb_spec k (length nxt));
      [rewrite slice_length; lia | apply np_zeros_length]. }
  repeat split; try assumption.
  unfold mixed_chunk. cbv zeta. rewrite add_length, !scale_length. lia.
Qed.

(** The loop never fails and never runs out of passes; the block keeps its
    size. *)
Lemma crossfade_while_ok (frame_count : nat) :
  forall fuel self output samples_generated,
    length output = frame_count ->
    frame_count - samples_generated <= fuel ->
    exists self' output',
      crossfade_while fuel frame_count self output samples_generated
      = Ok (self', output') /\
      length output' = frame_count.
Proof.
  induction fuel as [| fuel IH]; intros self output sg Hl Hf.
  - simpl. destruct (Nat.ltb_spec sg frame_count); [lia | eauto].
  - rewrite crossfade_while_pass.
    destruct (Nat.ltb_spec sg frame_count) as [Hlt | Hge]; [| eauto].
    cbv zeta.
    set (k := Nat.min (frame_count - sg)
                      (crossfade_samples self - crossfade_position self)).
    destruct (Nat.leb_spec k 0) as [Hk | Hk]; [eauto |].
    destruct (assign_ok output sg (sg + k) (mixed_chunk self k))
      as (Ea & La); [lia | lia | |].
    { destruct (chunk_lengths self k) as (_ & _ & ->). lia. }
    rewrite Ea. simpl.
    destruct (crossfade_samples self <=? crossfade_position self + k).
    + eexists. eexists. split; [reflexivity |]. congruence.
    + apply IH; [congruence | lia].
Qed.

(** ** The mixer: one render call *)

(** Normal playback with more than [frame_count] frames left: the block is
    a view of the track, and the gain is written through it. *)
Lemma generate_playing_view (self : AudioMixer.t) (frame_count : nat)
      (cur : buffer) :
  is_crossfading self = false ->
  current_audio self = Some cur ->
  current_position self + frame_count < length cur ->
  _generate_audio_chunk self frame_count =
  Ok (AudioMixer.mk (sample_rate self)
        (Some (scaled_in_place cur (current_position self)
                 (current_position self + frame_count) (master_volume self)))
        (next_audio self) (crossfade_samples self)
        (current_position self + frame_count) false
        (crossfade_position self) (master_volume self) (is_playing self),
      limit (scale (slice cur (current_position self)
                          (current_position self + frame_count))
                   (master_volume self))).
Proof.
  intros Hx Hc Hlt. unfold _generate_audio_chunk.
  rewrite Hx, Hc. simpl.
  rewrite (proj2 (Nat.ltb_lt _ _) Hlt). simpl. rewrite Hc.
  unfold set_current_audio. simpl. rewrite Hx.
  set (p := current_position self).
  set (v := scale (slice cur p (p + frame_count)) (master_volume self)).
  assert (Lv : length v = frame_count).
  { unfold v. rewrite scale_length, slice_length. lia. }
  pose proof (slice_splice cur v p (skipn (p + frame_count) cur)) as Hs.
  rewrite Lv in Hs. rewrite Hs by lia.
  reflexivity.
Qed.

(** Normal playback at the end of the track: what is left, then zeros. *)
Lemma generate_playing_tail (self : AudioMixer.t) (frame_count : nat)
      (cur : buffer) :
  is_crossfading self = false ->
  current_audio self = Some cur ->
  length cur <= current_position self + frame_count ->
  exists output,
    _generate_audio_chunk self frame_count =
    Ok (set_current_position self (length cur),
        limit (scale output (master_volume self))) /\
    length output = frame_count.
Proof.
  intros Hx Hc Hge. unfold _generate_audio_chunk.
  rewrite Hx, Hc. simpl.
  rewrite (proj2 (Nat.ltb_ge _ _) Hge).
  destruct (Nat.ltb_spec 0 (length cur - current_position self)) as [Hr | Hr].
  - destruct (assign_ok (np_zeros frame_count) 0
                (length cur - current_position self)
                (slice cur (current_position self) (length cur)))
      as (Ea & La).
    + lia.
    + rewrite np_zeros_length. lia.
    + rewrite slice_length. lia.
    + rewrite Ea. simpl. eexists. split; [reflexivity |].
      simpl in La. rewrite La. apply np_zeros_length.
  - simpl. eexists. split; [reflexivity |]. apply np_zeros_length.
Qed.

(** While crossfading the block is the loop's own array. *)
Lemma generate_crossfading (self : AudioMixer.t) (frame_count : nat) :
  is_crossfading self = true ->
  exists self' output,
    crossfade_while frame_count frame_count self (np_zeros frame_count) 0
    = Ok (self', output) /\
    length output = frame_count /\
    _generate_audio_chunk self frame_count =
    Ok (self', limit (scale output (master_volume self'))).
Proof.
  intro Hx.
  destruct (crossfade_while_ok frame_count frame_count self
              (np_zeros frame_count) 0) as (self' & output & E & L);
    [apply np_zeros_length | lia |].
  exists self', output. split; [assumption |]. split; [assumption |].
  unfold _generate_audio_chunk. rewrite Hx, E. reflexivity.
Qed.

Lemma limit_length (a : buffer) : length (limit a) = length a.
Proof. apply length_map. Qed.

(** With a current buffer, or while crossfading, the render path returns,
    and returns a block of the requested size. *)
Lemma generate_audio_chunk_ok (self : AudioMixer.t) (frame_count : nat) :
  is_crossfading self = true \/ current_audio self <> None ->
  exists self' output,
    _generate_audio_chunk self frame_count = Ok (self', output) /\
    length output = frame_count.
Proof.
  intro H. destruct (is_crossfading self) eqn:Hx.
  - destruct (generate_crossfading self frame_count Hx)
      as (self' & output & _ & L & E).
    rewrite E. eexists. eexists. split; [reflexivity |].
    rewrite limit_length, scale_length. assumption.
  - destruct H as [H | H]; [discriminate |].
    destruct (current_audio self) as [cur |] eqn:Hc; [| congruence].
    destruct (Nat.lt_ge_cases (current_position self + frame_count) (length cur))
      as [Hlt | Hge].
    + rewrite (generate_playing_view self frame_count cur Hx Hc Hlt).
      eexists. eexists. split; [reflexivity |].
      rewrite limit_length, scale_length, slice_length. lia.
    + destruct (generate_playing_tail self frame_count cur Hx Hc Hge)
        as (output & E & L).
      rewrite E. eexists. eexists. split; [reflexivity |].
      rewrite limit_length, scale_length. assumption.
Qed.

(** The block as an array: for every mixer state the callback's array has
    exactly [frame_count] rows; it is all zeros when playback is stopped or
    there is no current buffer; and whenever the callback reaches
    [_generate_audio_chunk] (playing, with a current buffer), that call
    returns without raising, so the exception handler is never needed. *)
Lemma audio_callback_frame_count (self : AudioMixer.t) (frame_count : nat) :
  1 <= frame_count ->
  length (snd (_audio_callback self frame_count)) = frame_count /\
  (is_playing self = false \/ current_audio self = None ->
   _audio_callback self frame_count = (self, np_zeros frame_count)) /\
  (is_playing self = true -> current_audio self <> None ->
   exists self' output,
     _generate_audio_chunk self frame_count = Ok (self', output) /\
     length output = frame_count /\
     _audio_callback self frame_count = (self', output)).
Proof.
  intros _. unfold _audio_callback.
  destruct (is_playing self) eqn:Hp; simpl.
  - destruct (current_audio self) as [cur |] eqn:Hc.
    + destruct (generate_audio_chunk_ok self frame_count)
        as (self' & output & E & L); [right; congruence |].
      rewrite E. simpl. split; [assumption |]. split.
      * intros [H | H]; discriminate.
      * intros _ _. eauto.
    + simpl. split; [apply np_zeros_length |]. split; [reflexivity |].
      intros _ H. congruence.
  - split; [apply np_zeros_length |]. split; [reflexivity |].
    intros H. discriminate.
Qed.

(** ** Starting a track *)

(** C8, as stated, fails: from the middle of a crossfade a successful
    [play_song] leaves the staged buffer in place and the mixer
    crossfading. *)
Lemma play_song_keeps_crossfade :
  let r := play_song mid_crossfade (Some (ones 50)) in
  snd r = true /\
  ~ (current_audio (fst r) = Some (ones 50) /\
     current_position (fst r) = 0 /\
     next_audio (fst r) = None /\
     is_crossfading (fst r) = false).
Proof.
  simpl. split; [reflexivity |].
  intros (_ & _ & H & _). discriminate H.
Qed.

(** C8, amended: after a successful [play_song] the current buffer is the
    newly loaded one, the read cursor is 0 and the playing flag is set; the
    staged next buffer, the crossfading flag and the crossfade cursor are
    what they were before the call. *)
Theorem play_song_effect (self self' : AudioMixer.t) (audio : option buffer) :
  play_song self audio = (self', true) ->
  current_audio self' = audio /\
  audio <> None /\
  current_position self' = 0 /\
  is_playing self' = true /\
  next_audio self' = next_audio self /\
  is_crossfading self' = is_crossfading self /\
  crossfade_position self' = crossfade_position self /\
  crossfade_samples self' = crossfade_samples self /\
  master_volume self' = master_volume self.
Proof.
  unfold play_song. destruct audio as [a |]; intro H; [| discriminate].
  injection H as <-. simpl. repeat split. discriminate.
Qed.

Lemma play_song_effect_witness :
  current_audio (fst (play_song mid_crossfade (Some (ones 50)))) = Some (ones 50) /\
  Some (ones 50) <> None /\
  current_position (fst (play_song mid_crossfade (Some (ones 50)))) = 0 /\
  is_playing (fst (play_song mid_crossfade (Some (ones 50)))) = true /\
  next_audio (fst (play_song mid_crossfade (Some (ones 50))))
    = next_audio mid_crossfade /\
  is_crossfading (fst (play_song mid_crossfade (Some (ones 50))))
    = is_crossfading mid_crossfade /\
  crossfade_position (fst (play_song mid_crossfade (Some (ones 50))))
    = crossfade_position mid_crossfade /\
  crossfade_samples (fst (play_song mid_crossfade (Some (ones 50))))
    = crossfade_samples mid_crossfade /\
  master_volume (fst (play_song mid_crossfade (Some (ones 50))))
    = master_volume mid_crossfade.
Proof.
  apply (play_song_effect mid_crossfade _ (Some (ones 50))). reflexivity.
Defined.

(** ** Rendering writes the gain into the track *)





(** ** Crossfading: the two ways a render call can go *)

Lemma crossfade_while_done (fuel frame_count : nat) (self : AudioMixer.t)
      (output : buffer) (samples_generated : nat) :
  frame_count <= samples_generated ->
  crossfade_while fuel frame_count self output samples_generated
  = Ok (self, output).
Proof.
  intro H. destruct fuel; simpl;
    destruct (Nat.ltb_spec samples_generated frame_count); try reflexivity; lia.
Qed.

Lemma skipn_np_zeros (k m : nat) : skipn k (np_zeros m) = np_zeros (m - k).
Proof.
  unfold np_zeros. revert m.
  induction k as [| k IH]; intros [| m]; simpl; auto.
Qed.

(** The window ends within this call: one pass of [k] frames, where [k] is
    what was left of the window; the rest of the block keeps its zeros. *)
Lemma crossfade_finishing (self : AudioMixer.t) (frame_count : nat) :
  crossfade_position self < crossfade_samples self ->
  crossfade_samples self - crossfade_position self <= frame_count ->
  crossfade_while frame_count frame_count self (np_zeros frame_count) 0
  = Ok (switched self (crossfade_samples self - crossfade_position self),
        mixed_chunk self (crossfade_samples self - crossfade_position self)
        ++ np_zeros (frame_count
                     - (crossfade_samples self - crossfade_position self))).
Proof.
  intros Hlt Hle.
  set (k := crossfade_samples self - crossfade_position self) in *.
  destruct frame_count as [| fuel]; [lia |].
  rewrite crossfade_while_pass. cbv zeta.
  replace (0 <? S fuel) with true by reflexivity.
  replace (Nat.min (S fuel - 0) (crossfade_samples self - crossfade_position self))
    with k by (unfold k; lia).
  destruct (Nat.leb_spec k 0) as [H0 | H0]; [unfold k in H0; lia |].
  destruct (assign_ok (np_zeros (S fuel)) 0 (0 + k) (mixed_chunk self k))
    as (Ea & _).
  - lia.
  - rewrite np_zeros_length. lia.
  - destruct (chunk_lengths self k) as (_ & _ & ->). lia.
  - rewrite Ea. cbn [bind firstn app].
    destruct (Nat.leb_spec (crossfade_samples self) (crossfade_position self + k));
      [| unfold k in *; lia].
    rewrite skipn_np_zeros. reflexivity.
Qed.

(** The window outlasts this call: one pass of [frame_count] frames. *)
Lemma crossfade_continuing (self : AudioMixer.t) (frame_count : nat) :
  1 <= frame_count ->
  crossfade_position self + frame_count < crossfade_samples self ->
  crossfade_while frame_count frame_count self (np_zeros frame_count) 0
  = Ok (advanced self frame_count, mixed_chunk self frame_count).
Proof.
  intros H1 Hlt.
  destruct frame_count as [| fuel]; [lia |].
  rewrite crossfade_while_pass. cbv zeta.
  replace (0 <? S fuel) with true by reflexivity.
  replace (Nat.min (S fuel - 0) (crossfade_samples self - crossfade_position self))
    with (S fuel) by lia.
  replace (S fuel <=? 0) with false by reflexivity.
  destruct (assign_ok (np_zeros (S fuel)) 0 (0 + S fuel)
              (mixed_chunk self (S fuel))) as (Ea & _).
  - lia.
  - rewrite np_zeros_length. lia.
  - destruct (chunk_lengths self (S fuel)) as (_ & _ & ->). lia.
  - rewrite Ea. cbn [bind firstn app].
    destruct (Nat.leb_spec (crossfade_samples self)
                           (crossfade_position self + S fuel)); [lia |].
    rewrite crossfade_while_done by lia.
    rewrite skipn_np_zeros, Nat.sub_diag. simpl. rewrite app_nil_r.
    reflexivity.
Qed.

(** C9: when what is left of the crossfade window is shorter than the
    requested block, the render call fills only that many frames with the
    mix; the remaining frames of the block are zero; the mixer leaves the
    crossfade with the former next buffer as current buffer, and its read
    cursor is the size of that final sub-chunk, that is the window length
    minus the samples crossfaded by earlier calls. *)
Theorem crossfade_completion_partway (self : AudioMixer.t) (frame_count : nat) :
  is_crossfading self = true ->
  crossfade_position self < crossfade_samples self ->
  crossfade_samples self - crossfade_position self < frame_count ->
  exists self' output,
    _generate_audio_chunk self frame_count = Ok (self', output) /\
    length output = frame_count /\
    skipn (crossfade_samples self - crossfade_position self) output
    = np_zeros (frame_count
                - (crossfade_samples self - crossfade_position self)) /\
    current_position self'
    = crossfade_samples self - crossfade_position self /\
    current_position self' + crossfade_position self = crossfade_samples self /\
    current_audio self' = next_audio self /\
    next_audio self' = None /\
    is_crossfading self' = false /\
    crossfade_position self' = 0.
Proof.
  intros Hx Hlt Hk.
  set (k := crossfade_samples self - crossfade_position self) in *.
  destruct (generate_crossfading self frame_count Hx)
    as (self' & output & E & L & G).
  rewrite crossfade_finishing in E by (fold k; lia).
  injection E as <- <-. fold k in G, L |- *.
  eexists. eexists. split; [exact G |].
  split; [rewrite limit_length, scale_length; exact L |].
  split.
  - unfold limit, scale. rewrite !map_app, skipn_app.
    rewrite !length_map. destruct (chunk_lengths self k) as (_ & _ & Lm).
    rewrite Lm, Nat.sub_diag. simpl.
    rewrite skipn_all2 by (rewrite !length_map, Lm; lia). simpl.
    apply limit_scale_zeros.
  - simpl. repeat split; try reflexivity. unfold k. lia.
Qed.

Lemma crossfade_completion_partway_witness :
  exists self' output,
    _generate_audio_chunk late_crossfade 64 = Ok (self', output) /\
    length output = 64 /\
    skipn 30 output = np_zeros 34 /\
    current_position self' = 30 /\
    current_position self' + 70 = 100 /\
    current_audio self' = Some (np_zeros 200) /\
    next_audio self' = None /\
    is_crossfading self' = false /\
    crossfade_position self' = 0.
Proof.
  apply (crossfade_completion_partway late_crossfade 64).
  - reflexivity.
  - simpl. lia.
  - simpl. lia.
Defined.

(** ** Crossfading from an all-ones track to an all-zero track *)

Lemma firstn_repeat_min {A : Type} (a : A) (k m : nat) :
  firstn k (repeat a m) = repeat a (Nat.min k m).
Proof.
  revert m. induction k as [| k IH]; intros [| m]; simpl; auto.
  rewrite IH. reflexivity.
Qed.

Lemma skipn_repeat_sub {A : Type} (a : A) (k m : nat) :
  skipn k (repeat a m) = repeat a (m - k).
Proof.
  revert m. induction k as [| k IH]; intros [| m]; simpl; auto.
Qed.

Lemma slice_repeat (f : frame) (len lo hi : nat) :
  hi <= len -> slice (repeat f len) lo hi = repeat f (hi - lo).
Proof.
  intro H. unfold slice. rewrite skipn_repeat_sub, firstn_repeat_min.
  f_equal. lia.
Qed.

Lemma mix_repeat (a b : frame) (wa wb : R) (k : nat) :
  add (scale (repeat a k) wa) (scale (repeat b k) wb)
  = repeat ((fst a * wa + fst b * wb)%R, (snd a * wa + snd b * wb)%R) k.
Proof.
  unfold add, scale. induction k as [| k IH]; simpl; [reflexivity |].
  rewrite IH. reflexivity.
Qed.

Lemma limit_scale_repeat (x : R) (w : R) (k : nat) :
  limit (scale (repeat (x, x) k) w)
  = repeat (soft_limit (x * w), soft_limit (x * w)) k.
Proof.
  unfold limit, scale. induction k as [| k IH]; simpl; [reflexivity |].
  rewrite IH. reflexivity.
Qed.

Section OnesToZeros.

Variable self : AudioMixer.t.
Variables len_current len_next : nat.
Hypothesis Hcur : current_audio self = Some (ones len_current).
Hypothesis Hnext : next_audio self = Some (np_zeros len_next).

Lemma mixed_chunk_ones_zeros (k : nat) :
  current_position self + k <= len_current ->
  mixed_chunk self k = repeat (current_weight self, current_weight self) k.
Proof.
  intro Hk. unfold mixed_chunk, current_chunk, next_chunk. cbv zeta.
  rewrite Hcur, Hnext. unfold ones at 1. rewrite repeat_length.
  rewrite (proj2 (Nat.leb_le _ _) Hk).
  unfold ones, np_zeros. rewrite repeat_length.
  rewrite slice_repeat by assumption.
  replace (current_position self + k - current_position self) with k by lia.
  assert (Hn : (if k <=? len_next
                then slice (repeat (0%R, 0%R) len_next) 0 k
                else repeat (0%R, 0%R) k) = repeat (0%R, 0%R) k).
  { destruct (Nat.leb_spec k len_next); [| reflexivity].
    rewrite slice_repeat by assumption. f_equal. lia. }
  rewrite Hn, mix_repeat. simpl. unfold current_weight.
  f_equal. f_equal; ring.
Qed.

Hypothesis Hplay : is_playing self = true.
Hypothesis Hx : is_crossfading self = true.

Lemma callback_crossfade_continuing (frame_count : nat) :
  1 <= frame_count ->
  current_position self + frame_count <= len_current ->
  crossfade_position self + frame_count < crossfade_samples self ->
  _audio_callback self frame_count
  = (advanced self frame_count,
     repeat (soft_limit (current_weight self * master_volume self),
             soft_limit (current_weight self * master_volume self)) frame_count).
Proof.
  intros H1 Hp Hc. unfold _audio_callback. rewrite Hplay, Hcur. simpl.
  destruct (generate_crossfading self frame_count Hx)
    as (self' & output & E & _ & G).
  rewrite crossfade_continuing in E by assumption.
  injection E as <- <-. rewrite G.
  rewrite mixed_chunk_ones_zeros by assumption.
  rewrite limit_scale_repeat. reflexivity.
Qed.

Lemma callback_crossfade_finishing (frame_count : nat) :
  1 <= frame_count ->
  current_position self + frame_count <= len_current ->
  crossfade_position self + frame_count = crossfade_samples self ->
  _audio_callback self frame_count
  = (switched self frame_count,
     repeat (soft_limit (current_weight self * master_volume self),
             soft_limit (current_weight self * master_volume self)) frame_count).
Proof.
  intros H1 Hp Hc. unfold _audio_callback. rewrite Hplay, Hcur. simpl.
  destruct (generate_crossfading self frame_count Hx)
    as (self' & output & E & _ & G).
  rewrite crossfade_finishing in E by lia.
  replace (crossfade_samples self - crossfade_position self)
    with frame_count in E by lia.
  rewrite Nat.sub_diag in E. simpl in E. rewrite app_nil_r in E.
  injection E as <- <-. rewrite G.
  rewrite mixed_chunk_ones_zeros by assumption.
  rewrite limit_scale_repeat. reflexivity.
Qed.

End OnesToZeros.

(** Starting a crossfade and rendering a 100-sample window as two blocks of
    50 frames. *)
Lemma two_half_window_calls (self : AudioMixer.t) (len_current len_next : nat) :
  is_playing self = true ->
  current_audio self = Some (ones len_current) ->
  next_audio self = Some (np_zeros len_next) ->
  crossfade_samples self = 100 ->
  current_position self + 100 <= len_current ->
  let s1 := fst (start_crossfade self) in
  let r1 := _audio_callback s1 50 in
  let r2 := _audio_callback (fst r1) 50 in
  snd (start_crossfade self) = true /\
  snd r1 = repeat (soft_limit (1 * master_volume self),
                   soft_limit (1 * master_volume self)) 50 /\
  snd r2 = repeat (soft_limit (1 / 2 * master_volume self),
                   soft_limit (1 / 2 * master_volume self)) 50 /\
  fst r2 = AudioMixer.mk (sample_rate self) (Some (np_zeros len_next)) None
             100 50 false 0 (master_volume self) true.
Proof.
  intros Hplay Hcur Hnext Hcs Hpos. cbv zeta.
  unfold start_crossfade. rewrite Hnext. simpl.
  set (s1 := set_crossfade_position (set_is_crossfading self true) 0).
  assert (E1 : _audio_callback s1 50
               = (advanced s1 50,
                  repeat (soft_limit (current_weight s1 * master_volume s1),
                          soft_limit (current_weight s1 * master_volume s1)) 50)).
  { apply (callback_crossfade_continuing s1 len_current len_next);
      simpl; try assumption; try reflexivity; lia. }
  rewrite E1. simpl fst. simpl snd.
  assert (E2 : _audio_callback (advanced s1 50) 50
               = (switched (advanced s1 50) 50,
                  repeat (soft_limit (current_weight (advanced s1 50)
                                      * master_volume (advanced s1 50)),
                          soft_limit (current_weight (advanced s1 50)
                                      * master_volume (advanced s1 50))) 50)).
  { apply (callback_crossfade_finishing (advanced s1 50) len_current len_next);
      simpl; try assumption; try reflexivity; lia. }
  rewrite E2. simpl fst. simpl snd.
  assert (W1 : current_weight s1 = 1%R).
  { unfold current_weight. simpl crossfade_position. simpl INR at 1.
    unfold Rdiv. ring. }
  assert (W2 : current_weight (advanced s1 50) = (1 / 2)%R).
  { unfold current_weight. simpl crossfade_position. simpl crossfade_samples.
    rewrite Hcs, !INR_IZR_INZ. simpl Z.of_nat. field. }
  rewrite W1, W2. simpl master_volume.
  split; [reflexivity |]. split; [reflexivity |]. split; [reflexivity |].
  unfold switched. simpl. rewrite Hnext, Hplay, Hcs. reflexivity.
Qed.

(** The limiter is below the identity here: tanh y < 10/19 for 2y <= 1,
    from e <= 3. *)
Lemma tanh_below (y : R) : (2 * y <= 1 -> tanh y < 10 / 19)%R.
Proof.
  intro Hy. unfold tanh, sinh, cosh.
  set (a := exp y). set (b := exp (- y)).
  assert (Ha : (0 < a)%R) by apply exp_pos.
  assert (Hb : (0 < b)%R) by apply exp_pos.
  assert (Hab : (a * b = 1)%R).
  { unfold a, b. rewrite <- exp_plus, Rplus_opp_r. apply exp_0. }
  assert (Haa : (a * a <= 3)%R).
  { unfold a. rewrite <- exp_plus.
    apply Rle_trans with (exp 1); [| apply exp_le_3].
    destruct (Rle_lt_or_eq_dec (y + y) 1) as [H | H]; [rlra | |].
    - left. apply exp_increasing. exact H.
    - rewrite H. right. reflexivity. }
  assert (H9 : (9 * a < 29 * b)%R).
  { apply Rmult_lt_reg_r with a; [assumption |].
    replace (29 * b * a)%R with 29%R
      by (rewrite Rmult_assoc, (Rmult_comm b a), Hab; ring).
    rnra. }
  apply Rmult_lt_reg_r with ((a + b) / 2)%R; [rlra |].
  unfold Rdiv at 1. rewrite Rmult_assoc, Rinv_l by rlra. rlra.
Qed.

Lemma soft_limit_half_gain : (soft_limit (1 / 2 * (8 / 10)) < 1 / 2)%R.
Proof.
  unfold soft_limit.
  assert (H : (tanh (1 / 2 * (8 / 10) * (95 / 100)) < 10 / 19)%R)
    by (apply tanh_below; rlra).
  rlra.
Qed.

Lemma nth_error_second_block (a b : frame) :
  nth_error (repeat a 50 ++ repeat b 50) 50 = Some b.
Proof.
  rewrite nth_error_app2 by (rewrite repeat_length; lia).
  rewrite repeat_length. reflexivity.
Qed.

(** C6, as stated, fails: with the window rendered as two blocks of 50
    frames the fade weight at local position 50 is 0.5, but the output
    sample there is tanh(0.5 * 0.8 * 0.95) * 0.95, which is below 0.5. *)
Lemma crossfade_sample_50_is_not_half :
  let s1 := fst (start_crossfade scenario) in
  let r1 := _audio_callback s1 50 in
  let r2 := _audio_callback (fst r1) 50 in
  nth_error (snd r1 ++ snd r2) 50
  = Some (soft_limit (1 / 2 * (8 / 10)), soft_limit (1 / 2 * (8 / 10))) /\
  nth_error (snd r1 ++ snd r2) 50 <> Some (1 / 2, 1 / 2)%R.
Proof.
  destruct (two_half_window_calls scenario 200 200)
    as (_ & E1 & E2 & _); try reflexivity.
  { simpl. lia. }
  cbv zeta. rewrite E1, E2, nth_error_second_block.
  split; [reflexivity |].
  intro H. injection H as H _.
  pose proof soft_limit_half_gain as Hlt.
  change (master_volume scenario) with (8 / 10)%R in H. rlra.
Qed.

(** Rendered as one block of 100 frames, the window has no fade at all:
    every frame of the block, the one at position 50 included, carries the
    weight of the start of the window. *)
Example single_call_window :
  snd (_audio_callback (fst (start_crossfade scenario)) 100)
  = repeat (soft_limit (1 * (8 / 10)), soft_limit (1 * (8 / 10))) 100.
Proof.
  rewrite (callback_crossfade_finishing
             (fst (start_crossfade scenario)) 200 200);
    try reflexivity; try (simpl; lia).
  assert (W : current_weight (fst (start_crossfade scenario)) = 1%R).
  { unfold current_weight. simpl crossfade_position. simpl INR at 1.
    unfold Rdiv. ring. }
  rewrite W. reflexivity.
Qed.

(** C6, amended: in a playing mixer whose current buffer is all ones and
    has at least 100 frames left after the read cursor, with an all-zero
    staged next buffer and a window of 100 samples, after a crossfade is
    started and the 100 samples are rendered as two calls of 50 frames, the
    output sample at local position 50 is the linear-fade value 0.5 after
    master volume and soft limiter, tanh(0.5 * volume * 0.95) * 0.95; the
    mixer is then no longer crossfading, still playing, its current buffer
    is the former next buffer and no next buffer is staged. *)
Theorem crossfade_linear_scenario
        (self : AudioMixer.t) (len_current len_next : nat) :
  is_playing self = true ->
  current_audio self = Some (ones len_current) ->
  next_audio self = Some (np_zeros len_next) ->
  crossfade_samples self = 100 ->
  current_position self + 100 <= len_current ->
  let s1 := fst (start_crossfade self) in
  let r1 := _audio_callback s1 50 in
  let r2 := _audio_callback (fst r1) 50 in
  snd (start_crossfade self) = true /\
  is_crossfading s1 = true /\
  length (snd r1 ++ snd r2) = 100 /\
  nth_error (snd r1 ++ snd r2) 50
  = Some (soft_limit (1 / 2 * master_volume self),
          soft_limit (1 / 2 * master_volume self)) /\
  is_crossfading (fst r2) = false /\
  is_playing (fst r2) = true /\
  current_audio (fst r2) = next_audio self /\
  next_audio (fst r2) = None.
Proof.
  intros Hplay Hcur Hnext Hcs Hpos.
  destruct (two_half_window_calls self len_current len_next
              Hplay Hcur Hnext Hcs Hpos) as (Hs & E1 & E2 & E3).
  cbv zeta. rewrite E1, E2, E3, nth_error_second_block.
  split; [assumption |].
  split; [unfold start_crossfade; rewrite Hnext; reflexivity |].
  split; [rewrite length_app, !repeat_length; reflexivity |].
  split; [reflexivity |].
  simpl. rewrite Hnext. auto.
Qed.

Lemma crossfade_linear_scenario_witness :
  let s1 := fst (start_crossfade scenario) in
  let r1 := _audio_callback s1 50 in
  let r2 := _audio_callback (fst r1) 50 in
  snd (start_crossfade scenario) = true /\
  is_crossfading s1 = true /\
  length (snd r1 ++ snd r2) = 100 /\
  nth_error (snd r1 ++ snd r2) 50
  = Some (soft_limit (1 / 2 * master_volume scenario),
          soft_limit (1 / 2 * master_volume scenario)) /\
  is_crossfading (fst r2) = false /\
  is_playing (fst r2) = true /\
  current_audio (fst r2) = next_audio scenario /\
  next_audio (fst r2) = None.
Proof.
  apply (crossfade_linear_scenario scenario 200 200).
  - reflexivity.
  - reflexivity.
  - reflexivity.
  - reflexivity.
  - simpl. lia.
Defined.
(** ** The Camelot wheel *)

Local Open Scope Q_scope.

Lemma wheel_lookup_position (k : string) (p : Z) :
  lookup k WHEEL_POSITIONS = Some p ->
  lookup_position p POSITION_TO_KEY = Some k /\ (0 <= p <= 23)%Z.
Proof.
  unfold WHEEL_POSITIONS. simpl lookup. intro H.
  repeat match type of H with
         | (if String.eqb k ?s then _ else _) = _ =>
             destruct (String.eqb_spec k s) as [-> | _];
             [injection H as <-; split; [vm_compute; reflexivity | lia] |]
         end.
  discriminate H.
Qed.

Lemma position_lookup_wheel (p : Z) (k : string) :
  lookup_position p POSITION_TO_KEY = Some k ->
  lookup k WHEEL_POSITIONS = Some p.
Proof.
  intro H.
  let d := eval vm_compute in POSITION_TO_KEY in
  change POSITION_TO_KEY with d in H.
  simpl lookup_position in H.
  repeat match type of H with
         | (if Z.eqb p ?z then _ else _) = _ =>
             destruct (Z.eqb_spec p z) as [-> | _];
             [injection H as <-; vm_compute; reflexivity |]
         end.
  discriminate H.
Qed.

Lemma wheel_lookup_injective (k1 k2 : string) (p : Z) :
  lookup k1 WHEEL_POSITIONS = Some p ->
  lookup k2 WHEEL_POSITIONS = Some p -> k1 = k2.
Proof.
  intros H1 H2.
  apply wheel_lookup_position in H1, H2.
  destruct H1 as [H1 _], H2 as [H2 _]. congruence.
Qed.

Lemma inject_Z_div_6 (z : Z) : inject_Z z / 6 == z # 6.
Proof.
  unfold Qdiv, Qmult, Qinv, Qeq. simpl. lia.
Qed.

Lemma half_position_range (p : Z) :
  (0 <= p <= 23 -> 0 <= p / 2 <= 11)%Z.
Proof.
  intro H. split; [apply Z.div_pos; lia |].
  apply Z.lt_succ_r. apply Z.div_lt_upper_bound; lia.
Qed.

Lemma key_distance_range (k1 k2 : string) :
  0 <= key_distance k1 k2 <= 1.
Proof.
  unfold key_distance.
  destruct (String.eqb k1 k2); [split; discriminate |].
  destruct (lookup k1 WHEEL_POSITIONS) as [p1 |] eqn:E1;
    [| split; discriminate].
  destruct (lookup k2 WHEEL_POSITIONS) as [p2 |] eqn:E2;
    [| split; discriminate].
  cbv zeta.
  apply wheel_lookup_position in E1, E2.
  destruct E1 as [_ R1], E2 as [_ R2].
  set (cd := Z.min (Z.abs (p1 / 2 - p2 / 2)) (12 - Z.abs (p1 / 2 - p2 / 2))).
  assert (Hcd : (0 <= cd)%Z).
  { unfold cd.
    pose proof (half_position_range p1 R1).
    pose proof (half_position_range p2 R2).
    lia. }
  split; [| apply Q.le_min_r].
  apply Q.min_glb; [| discriminate].
  rewrite inject_Z_div_6.
  destruct (negb (p1 mod 2 =? p2 mod 2)%Z);
    unfold Qle, Qplus; simpl; lia.
Qed.

(** X1: the key distance lies in [0, 1] and is 0 exactly for equal key
    strings (whether or not they are on the wheel). *)
Theorem key_distance_bounds_zero (k1 k2 : string) :
  0 <= key_distance k1 k2 <= 1 /\
  (key_distance k1 k2 == 0 <-> k1 = k2).
Proof.
  split; [apply key_distance_range |].
  split.
  - intro H. destruct (String.eqb_spec k1 k2) as [E | Hne]; [assumption |].
    exfalso. unfold key_distance in H.
    rewrite (proj2 (String.eqb_neq k1 k2) Hne) in H.
    destruct (lookup k1 WHEEL_POSITIONS) as [p1 |] eqn:E1;
      [| discriminate H].
    destruct (lookup k2 WHEEL_POSITIONS) as [p2 |] eqn:E2;
      [| discriminate H].
    cbv zeta in H.
    pose proof (proj2 (wheel_lookup_position _ _ E1)) as R1.
    pose proof (proj2 (wheel_lookup_position _ _ E2)) as R2.
    pose proof (half_position_range p1 R1) as C1.
    pose proof (half_position_range p2 R2) as C2.
    apply Hne. apply (wheel_lookup_injective k1 k2 p1 E1).
    rewrite E2. f_equal.
    set (cd := Z.min (Z.abs (p1 / 2 - p2 / 2))
                     (12 - Z.abs (p1 / 2 - p2 / 2))) in H.
    assert (Hcd : (0 <= cd)%Z) by (unfold cd; lia).
    rewrite inject_Z_div_6 in H.
    destruct (Q.min_spec ((cd # 6) + (if negb (p1 mod 2 =? p2 mod 2)%Z
                                    then 2 # 10 else 0)) 1)
      as [[_ Hm] | [_ Hm]]; rewrite Hm in H; [| discriminate H].
    destruct (Z.eqb_spec (p1 mod 2) (p2 mod 2)) as [Hmod | Hmod];
      simpl negb in H; cbv iota in H;
      unfold Qeq, Qplus in H; simpl in H; [| lia].
    assert (Hz : cd = 0%Z) by lia.
    assert (Hc : (p1 / 2 = p2 / 2)%Z) by (unfold cd in Hz; lia).
    rewrite (Z.div_mod p1 2), (Z.div_mod p2 2) by lia.
    rewrite Hc, Hmod. reflexivity.
  - intros ->. unfold key_distance. rewrite String.eqb_refl. reflexivity.
Qed.

(** X2: the key distance does not depend on the order of the two keys. *)
Theorem key_distance_symmetric (k1 k2 : string) :
  key_distance k1 k2 == key_distance k2 k1.
Proof.
  rewrite (key_distance_sym k1 k2). reflexivity.
Qed.

Lemma key_distance_off_wheel (k1 k2 : string) :
  lookup k1 WHEEL_POSITIONS = None ->
  k1 <> k2 ->
  key_distance k1 k2 = 1 /\ key_distance k2 k1 = 1.
Proof.
  intros Hn Hne.
  assert (H : key_distance k1 k2 = 1).
  { unfold key_distance.
    rewrite (proj2 (String.eqb_neq k1 k2) Hne), Hn. reflexivity. }
  split; [assumption |]. rewrite <- (key_distance_sym k1 k2). assumption.
Qed.

(** X3: a key that is not on the wheel is at the maximum distance 1 from
    every other key string, in both orders. *)
Theorem key_distance_unknown_key (k1 k2 : string) :
  lookup k1 WHEEL_POSITIONS = None ->
  k1 <> k2 ->
  key_distance k1 k2 = 1 /\ key_distance k2 k1 = 1.
Proof.
  apply key_distance_off_wheel.
Qed.

Lemma key_distance_unknown_key_witness :
  key_distance "13A" "8A" = 1 /\ key_distance "8A" "13A" = 1.
Proof.
  apply (key_distance_unknown_key "13A" "8A").
  - reflexivity.
  - discriminate.
Defined.

(** X4: the reverse dictionary inverts the wheel: a key has position p on
    the wheel exactly when POSITION_TO_KEY maps p to that key. *)
Theorem wheel_round_trip (k : string) (p : Z) :
  lookup k WHEEL_POSITIONS = Some p <->
  lookup_position p POSITION_TO_KEY = Some k.
Proof.
  split.
  - intro H. apply wheel_lookup_position. assumption.
  - apply position_lookup_wheel.
Qed.

Lemma lookup_In (k : string) (p : Z) (d : list (string * Z)) :
  lookup k d = Some p -> In (k, p) d.
Proof.
  induction d as [| [k' v] d IH]; simpl; [discriminate |].
  destruct (String.eqb_spec k k') as [-> | _].
  - intro H. injection H as ->. left. reflexivity.
  - intro H. right. apply IH. assumption.
Qed.

Lemma In_wheel_lookup (k : string) (p : Z) :
  In (k, p) WHEEL_POSITIONS -> lookup k WHEEL_POSITIONS = Some p.
Proof.
  unfold WHEEL_POSITIONS. simpl In. intro H.
  repeat (destruct H as [H | H]; [injection H as <- <-; reflexivity |]).
  contradiction.
Qed.

Lemma fold_left_invariant {A B : Type} (P : A -> Prop) (f : A -> B -> A)
      (l : list B) :
  (forall x acc, In x l -> P acc -> P (f acc x)) ->
  forall acc, P acc -> P (fold_left f l acc).
Proof.
  induction l as [| x l IH]; intros Hf acc Hacc; simpl; [assumption |].
  apply IH.
  - intros y a Hy. apply Hf. right. assumption.
  - apply Hf; [left; reflexivity | assumption].
Qed.

(** What [get_compatible_keys] collects is a filter of the wheel's keys. *)
Lemma get_compatible_keys_filter (key : string) (max_distance : Q) :
  get_compatible_keys key max_distance
  = filter (fun other_key => Qle_bool (key_distance key other_key) max_distance)
           (map fst WHEEL_POSITIONS).
Proof.
  unfold get_compatible_keys.
  assert (G : forall l acc,
             fold_left
               (fun compatible other_key =>
                  if Qle_bool (key_distance key other_key) max_distance
                  then compatible ++ [other_key] else compatible) l acc
             = acc ++ filter (fun other_key =>
                                Qle_bool (key_distance key other_key) max_distance)
                             l).
  { induction l as [| x l IH]; intro acc; simpl; [symmetry; apply app_nil_r |].
    rewrite IH.
    destruct (Qle_bool (key_distance key x) max_distance);
      [rewrite <- app_assoc |]; reflexivity. }
  apply (G _ []).
Qed.

Lemma compatible_keys_table :
  forallb
    (fun kp : string * Z =>
       forallb
         (fun oq : string * Z =>
            Bool.eqb
              (existsb (String.eqb (fst oq))
                       (get_compatible_keys (fst kp) max_distance_default))
              (near_on_wheel (snd kp) (snd oq)))
         WHEEL_POSITIONS)
    WHEEL_POSITIONS = true.
Proof. vm_compute. reflexivity. Qed.

(** X5: at the default threshold 0.3 the keys compatible with a key of the
    wheel are exactly the key itself, the key with the same number and the
    other letter, and the two keys with the same letter and an adjacent
    number (12 and 1 being adjacent). *)
Theorem get_compatible_keys_default (key other : string) (p : Z) :
  lookup key WHEEL_POSITIONS = Some p ->
  (In other (get_compatible_keys key max_distance_default) <->
   exists q, lookup other WHEEL_POSITIONS = Some q /\
             near_on_wheel p q = true).
Proof.
  intro Hk. apply lookup_In in Hk.
  pose proof compatible_keys_table as T.
  rewrite forallb_forall in T. specialize (T _ Hk).
  rewrite forallb_forall in T. simpl fst in T. simpl snd in T.
  split.
  - intro Hin.
    assert (Hw : In other (map fst WHEEL_POSITIONS)).
    { rewrite get_compatible_keys_filter in Hin.
      apply filter_In in Hin. tauto. }
    apply in_map_iff in Hw. destruct Hw as ([o q] & Ho & Hoq).
    simpl in Ho. subst o.
    exists q. split; [apply In_wheel_lookup; assumption |].
    specialize (T _ Hoq). simpl fst in T. simpl snd in T.
    apply Bool.eqb_prop in T. rewrite <- T.
    apply existsb_exists. exists other. split; [assumption |].
    apply String.eqb_refl.
  - intros (q & Ho & Hn). apply lookup_In in Ho.
    specialize (T _ Ho). simpl fst in T. simpl snd in T.
    apply Bool.eqb_prop in T. rewrite Hn in T.
    apply existsb_exists in T. destruct T as (x & Hx & Ex).
    apply String.eqb_eq in Ex. subst x. assumption.
Qed.

Lemma get_compatible_keys_default_witness :
  In "9A"%string (get_compatible_keys "8A" max_distance_default) <->
  exists q, lookup "9A" WHEEL_POSITIONS = Some q /\
            near_on_wheel 14 q = true.
Proof.
  apply (get_compatible_keys_default "8A" "9A" 14). reflexivity.
Defined.

(** X6: for a key that is not on the wheel and a threshold below 1, no key
    is compatible. *)
Theorem get_compatible_keys_unknown (key : string) (max_distance : Q) :
  lookup key WHEEL_POSITIONS = None ->
  max_distance < 1 ->
  get_compatible_keys key max_distance = [].
Proof.
  intros Hn Hm. rewrite get_compatible_keys_filter.
  assert (G : forall l : list string,
             Forall (fun o => exists q, lookup o WHEEL_POSITIONS = Some q) l ->
             filter (fun other_key =>
                       Qle_bool (key_distance key other_key) max_distance) l
             = []).
  { induction l as [| o l IH]; intro Hl; simpl; [reflexivity |].
    inversion Hl as [| ? ? (q & Hq) Hl']; subst.
    assert (Hne : key <> o) by (intros ->; congruence).
    destruct (key_distance_off_wheel key o Hn Hne) as [-> _].
    destruct (Qle_bool 1 max_distance) eqn:E; [| apply IH; assumption].
    apply Qle_bool_iff in E. exfalso. apply (Qlt_not_le _ _ Hm E). }
  apply G. apply Forall_forall. intros o Ho.
  apply in_map_iff in Ho. destruct Ho as ([o' q] & <- & Hoq).
  exists q. apply In_wheel_lookup. assumption.
Qed.

Lemma get_compatible_keys_unknown_witness :
  get_compatible_keys "H#" max_distance_default = [].
Proof.
  apply (get_compatible_keys_unknown "H#" max_distance_default).
  - reflexivity.
  - reflexivity.
Defined.

(** X7: whatever the correlation coefficients (NaN included), the key that
    [estimate_key_from_chroma] selects is one of the 24 keys of the wheel. *)
Theorem estimate_key_on_wheel (corr_major corr_minor : nat -> option Q) :
  exists p,
    lookup (estimate_key_from_chroma corr_major corr_minor) WHEEL_POSITIONS
    = Some p.
Proof.
  unfold estimate_key_from_chroma.
  apply (fold_left_invariant
           (fun best : Q * string =>
              exists p, lookup (snd best) WHEEL_POSITIONS = Some p)).
  - intros shift best Hs Hb.
    assert (HB : exists p, lookup (key_name (shift + 1) "B") WHEEL_POSITIONS
                           = Some p).
    { simpl in Hs.
      repeat (destruct Hs as [<- | Hs]; [vm_compute; eauto |]).
      contradiction. }
    assert (HA : exists p, lookup (key_name (shift + 1) "A") WHEEL_POSITIONS
                           = Some p).
    { simpl in Hs.
      repeat (destruct Hs as [<- | Hs]; [vm_compute; eauto |]).
      contradiction. }
    cbv zeta.
    destruct (exceeds (corr_major shift) (fst best)); simpl fst;
      destruct (exceeds (corr_minor shift) _); simpl snd; assumption.
  - simpl. eexists. reflexivity.
Qed.

(** ** The tempo distance *)

Lemma Qeq_bool_pos (b : Q) : 0 < b -> Qeq_bool b 0 = false.
Proof.
  intro H. destruct (Qeq_bool b 0) eqn:E; [| reflexivity].
  apply Qeq_bool_eq in E. rewrite E in H. discriminate H.
Qed.

Lemma Qdiv_nonneg (a c : Q) : 0 <= a -> 0 < c -> 0 <= a / c.
Proof.
  intros Ha Hc. apply Qle_shift_div_l; [assumption |]. qlra.
Qed.

Lemma harmonic_ratios_pos (target : Q) : In target harmonic_ratios -> 0 < target.
Proof.
  unfold harmonic_ratios. simpl. intro H.
  repeat (destruct H as [<- | H]; [reflexivity |]). contradiction.
Qed.

(** The harmonic-ratio loop keeps the best distance within [0, 1]. *)
Lemma harmonic_fold_range (actual_ratio thr : Q) (targets : list Q) :
  0 < thr ->
  (forall t, In t targets -> 0 < t) ->
  forall best, 0 <= best <= 1 ->
    0 <= fold_left
           (fun best_distance target_ratio =>
              let ratio_error :=
                Qabs (actual_ratio - target_ratio) / target_ratio in
              if Qle_bool ratio_error thr
              then Qmin best_distance (ratio_error / thr)
              else best_distance)
           targets best <= 1.
Proof.
  intros Hthr Hpos best Hbest.
  apply (fold_left_invariant (fun b => 0 <= b <= 1)); [| assumption].
  intros t acc Ht [H0 H1]. cbv zeta.
  destruct (Qle_bool (Qabs (actual_ratio - t) / t) thr); [| split; assumption].
  split.
  - apply Q.min_glb; [assumption |].
    apply Qdiv_nonneg; [| assumption].
    apply Qdiv_nonneg; [apply Qabs_nonneg | apply Hpos; assumption].
  - apply Qle_trans with acc; [apply Q.le_min_l | assumption].
Qed.

Lemma bpm_distance_range (b1 b2 : Q) :
  0 < b1 -> 0 < b2 -> 0 <= bpm_distance b1 b2 <= 1.
Proof.
  intros H1 H2. unfold bpm_distance, bpm_distance_ht. cbv zeta.
  rewrite (Qeq_bool_pos b1 H1), (Qeq_bool_pos b2 H2). simpl orb. cbv iota.
  set (ratio := Qmax b1 b2 / Qmin b1 b2).
  assert (Hm : 0 < Qmin b1 b2) by (apply Q.min_glb_lt; assumption).
  assert (Hr : 1 <= ratio).
  { unfold ratio. apply Qle_shift_div_l; [assumption |].
    rewrite Qmult_1_l.
    apply Qle_trans with b1; [apply Q.le_min_l | apply Q.le_max_l]. }
  destruct (Qle_bool (ratio - 1) (8 # 100)) eqn:E.
  - apply Qle_bool_iff in E. split.
    + apply Qdiv_nonneg; [qlra | reflexivity].
    + apply Qle_shift_div_r; [reflexivity | qlra].
  - apply harmonic_fold_range.
    + reflexivity.
    + apply harmonic_ratios_pos.
    + split; discriminate.
Qed.

(** X8: for two positive tempos the tempo distance lies in [0, 1]. *)
Theorem bpm_distance_bounds (bpm1 bpm2 : Q) :
  0 < bpm1 -> 0 < bpm2 ->
  0 <= bpm_distance bpm1 bpm2 /\ bpm_distance bpm1 bpm2 <= 1.
Proof.
  intros H1 H2. apply bpm_distance_range; assumption.
Qed.

Lemma bpm_distance_bounds_witness :
  0 <= bpm_distance 100 137 /\ bpm_distance 100 137 <= 1.
Proof.
  apply (bpm_distance_bounds 100 137); reflexivity.
Defined.

(** X9: a tempo is at distance 0 from itself, except the tempo 0, which is
    at distance 1 from itself. *)
Theorem bpm_distance_equal_tempos (b : Q) :
  bpm_distance b b == if Qeq_bool b 0 then 1 else 0.
Proof.
  unfold bpm_distance, bpm_distance_ht. cbv zeta.
  destruct (Qeq_bool b 0) eqn:E; simpl orb; cbv iota; [reflexivity |].
  assert (Hb : ~ b == 0) by (apply Qeq_bool_neq; assumption).
  assert (Hr : Qmax b b / Qmin b b - 1 == 0).
  { rewrite Q.max_id, Q.min_id. field. assumption. }
  assert (Hle : Qle_bool (Qmax b b / Qmin b b - 1) (8 # 100) = true).
  { apply Qle_bool_iff. rewrite Hr. discriminate. }
  rewrite Hle, Hr. reflexivity.
Qed.

Lemma Qdiv_pos_neg (M m : Q) : 0 < M -> m < 0 -> M / m < 0.
Proof.
  destruct M as [a b], m as [c d].
  unfold Qlt, Qdiv, Qmult, Qinv. simpl.
  destruct c as [| c | c]; simpl; intros; lia.
Qed.

(** X10: a negative tempo against a positive one takes the direct branch
    with a negative ratio, and the distance is negative, at most -12.5, in
    both orders. *)
Theorem bpm_distance_negative_tempo (bpm1 bpm2 : Q) :
  bpm1 < 0 -> 0 < bpm2 ->
  bpm_distance bpm1 bpm2 <= - (25 # 2) /\ bpm_distance bpm2 bpm1 <= - (25 # 2).
Proof.
  intros H1 H2.
  assert (G : forall x y,
             0 < Qmax x y -> Qmin x y < 0 ->
             Qeq_bool x 0 || Qeq_bool y 0 = false ->
             bpm_distance x y <= - (25 # 2)).
  { intros x y HM Hm Hz. unfold bpm_distance, bpm_distance_ht. cbv zeta.
    rewrite Hz.
    pose proof (Qdiv_pos_neg _ _ HM Hm) as Hr.
    set (ratio := Qmax x y / Qmin x y) in *.
    assert (E : Qle_bool (ratio - 1) (8 # 100) = true)
      by (apply Qle_bool_iff; qlra).
    rewrite E. apply Qle_shift_div_r; [reflexivity | qlra]. }
  assert (Z1 : Qeq_bool bpm1 0 = false).
  { destruct (Qeq_bool bpm1 0) eqn:E; [| reflexivity].
    apply Qeq_bool_eq in E. rewrite E in H1. discriminate H1. }
  pose proof (Qeq_bool_pos bpm2 H2) as Z2.
  split; apply G.
  - apply Qlt_le_trans with bpm2; [assumption | apply Q.le_max_r].
  - apply Qle_lt_trans with bpm1; [apply Q.le_min_l | assumption].
  - rewrite Z1, Z2. reflexivity.
  - apply Qlt_le_trans with bpm2; [assumption | apply Q.le_max_l].
  - apply Qle_lt_trans with bpm1; [apply Q.le_min_r | assumption].
  - rewrite Z1, Z2. reflexivity.
Qed.

Lemma bpm_distance_negative_tempo_witness :
  bpm_distance (- (100)) 100 <= - (25 # 2) /\
  bpm_distance 100 (- (100)) <= - (25 # 2).
Proof.
  apply (bpm_distance_negative_tempo (- (100)) 100); reflexivity.
Defined.

(** ** The composite distance and the matrix *)

Lemma calculate_distance_range (s1 s2 : SongMetadata) :
  0 < bpm s1 -> 0 < bpm s2 -> 0 <= _calculate_distance s1 s2 <= 1.
Proof.
  intros H1 H2. unfold _calculate_distance. cbv zeta.
  pose proof (key_distance_range (key s1) (key s2)) as [K0 K1].
  pose proof (bpm_distance_range _ _ H1 H2) as [B0 B1].
  set (e := Qmin (Qabs (energy s1 - energy s2) / (1 # 10)) 1).
  assert (E1 : e <= 1) by apply Q.le_min_r.
  assert (E0 : 0 <= e).
  { apply Q.min_glb; [| discriminate].
    apply Qdiv_nonneg; [apply Qabs_nonneg | reflexivity]. }
  split; qlra.
Qed.

(** X11: when every track has a positive tempo, every entry of the distance
    matrix lies in [0, 1]. *)
Theorem distance_matrix_entries_bounded
        (songs : list SongMetadata) (i j : nat) :
  Forall (fun s => 0 < bpm s) songs ->
  (i < length songs)%nat -> (j < length songs)%nat ->
  exists m q,
    _build_distance_matrix songs (length songs) = Ok m /\
    cell m i j = Ok q /\ 0 <= q /\ q <= 1.
Proof.
  intros Hpos Hi Hj.
  destruct (build_distance_matrix_spec songs) as (m & E & _ & Hc).
  exists m, (entry songs i j).
  split; [assumption |]. split; [apply Hc; assumption |].
  unfold entry. destruct (i =? j)%nat; [split; discriminate |].
  destruct (nth_error songs i) as [si |] eqn:Ei; [| split; discriminate].
  destruct (nth_error songs j) as [sj |] eqn:Ej; [| split; discriminate].
  rewrite Forall_forall in Hpos.
  apply calculate_distance_range; apply Hpos;
    eapply nth_error_In; eassumption.
Qed.

Lemma distance_matrix_entries_bounded_witness :
  exists m q,
    _build_distance_matrix four_tracks 4 = Ok m /\
    cell m 2 3 = Ok q /\ 0 <= q /\ q <= 1.
Proof.
  apply (distance_matrix_entries_bounded four_tracks 2 3).
  - repeat constructor.
  - simpl. lia.
  - simpl. lia.
Defined.

(** ** Tours: errors *)

Local Open Scope nat_scope.

Lemma cell_out_of_range (side : nat) (m : matrix) (a b : nat) :
  square side m -> side <= a \/ side <= b -> cell m a b = Raise IndexError.
Proof.
  intros [Hl Hr] H. unfold cell, index.
  destruct (nth_error m a) as [row |] eqn:Ea; [| reflexivity].
  simpl. destruct (nth_error row b) as [q |] eqn:Eb; [| reflexivity].
  exfalso. pose proof (Hr _ _ Ea) as Hrow.
  assert (a < length m) by (apply nth_error_Some; congruence).
  assert (b < length row) by (apply nth_error_Some; congruence).
  lia.
Qed.

(** A loop whose body can only raise [IndexError], and does raise it at
    one of the indices whatever the state, raises [IndexError]. *)
Lemma for_each_raises {St : Type} (body : nat -> St -> res St) (ixs : list nat)
      (i0 : nat) :
  (forall i s e, body i s = Raise e -> e = IndexError) ->
  In i0 ixs ->
  (forall s, body i0 s = Raise IndexError) ->
  forall s, for_each ixs body s = Raise IndexError.
Proof.
  intros Honly Hin Hfail.
  induction ixs as [| i ixs IH]; intro s; [contradiction |].
  simpl. destruct (body i s) as [s' | e] eqn:E; simpl.
  - destruct Hin as [-> | Hin]; [rewrite Hfail in E; discriminate |].
    apply IH. assumption.
  - rewrite (Honly _ _ _ E). reflexivity.
Qed.

(** X12: on a tour one of whose entries is greater than or equal to the
    number of tracks, the tour distance raises [IndexError], and so does
    [improve_2opt].  (Entries are natural numbers: the negative indices that
    numpy counts from the end are outside the model.) *)
Theorem tour_distance_index_error (self : TSPSolver.t) (tour : list nat)
        (a : nat) (max_iterations : nat) :
  well_formed self ->
  In a tour -> n self <= a ->
  _calculate_tour_distance self tour = Raise IndexError /\
  improve_2opt self tour max_iterations = Raise IndexError.
Proof.
  intros Hwf Hin Ha.
  assert (E : _calculate_tour_distance self tour = Raise IndexError).
  { unfold _calculate_tour_distance, range. rewrite Nat.sub_0_r.
    destruct (In_nth_error _ _ Hin) as (i0 & Hi0).
    assert (Li0 : i0 < length tour) by (apply nth_error_Some; congruence).
    apply (for_each_raises _ _ i0).
    - intros i s e H. cbv zeta in H. unfold cell, index in H.
      destruct (nth_error tour i) as [x |]; simpl in H;
        [| inversion H; reflexivity].
      destruct (nth_error tour ((i + 1) mod length tour)) as [y |];
        simpl in H; [| inversion H; reflexivity].
      destruct (nth_error (distance_matrix self) x) as [row |]; simpl in H;
        [| inversion H; reflexivity].
      destruct (nth_error row y); simpl in H; inversion H; reflexivity.
    - apply in_seq. lia.
    - intro s. cbv zeta. unfold index at 1. rewrite Hi0. simpl.
      destruct (index tour ((i0 + 1) mod length tour)) as [y | e] eqn:Ey.
      + simpl. rewrite (cell_out_of_range (n self)); [reflexivity | exact Hwf |].
        left. assumption.
      + simpl. unfold index in Ey.
        destruct (nth_error tour ((i0 + 1) mod length tour));
          inversion Ey; reflexivity. }
  split; [assumption |].
  unfold improve_2opt. rewrite E. reflexivity.
Qed.

Lemma tour_distance_index_error_witness :
  exists self,
    TSPSolver.__init__ four_tracks = Ok self /\
    _calculate_tour_distance self [0; 1; 4; 2] = Raise IndexError /\
    improve_2opt self [0; 1; 4; 2] 1000 = Raise IndexError.
Proof.
  destruct (init_spec four_tracks) as (self & E & Hn & Hwf).
  exists self. split; [assumption |].
  apply (tour_distance_index_error self [0; 1; 4; 2] 4 1000).
  - assumption.
  - simpl. auto.
  - rewrite Hn. simpl. lia.
Defined.

(** ** Tours: the cycle *)

Lemma cell_dist (self : TSPSolver.t) (a b : nat) :
  well_formed self -> a < n self -> b < n self ->
  cell (distance_matrix self) a b = Ok (dist self a b).
Proof.
  intros Hwf Ha Hb. unfold dist.
  destruct (cell_square _ _ a b Hwf Ha Hb) as (q & ->). reflexivity.
Qed.

(** The loop of [_calculate_tour_distance], from position [length pre] on. *)
Lemma tour_distance_loop (self : TSPSolver.t) (tour : list nat) :
  well_formed self -> valid self tour ->
  forall suf pre total,
    tour = pre ++ suf ->
    for_each (seq (length pre) (length suf))
      (fun i total =>
         let j := (i + 1) mod length tour in
         a <- index tour i ;;
         b <- index tour j ;;
         d <- cell (distance_matrix self) a b ;;
         Ok (total + d)%Q)
      total
    = Ok (sum_edges self (combine suf (tl suf ++ firstn 1 tour)) total).
Proof.
  intros Hwf Hv. induction suf as [| a suf IH]; intros pre total Ht.
  - reflexivity.
  - assert (Hlen : length tour = length pre + S (length suf))
      by (rewrite Ht, length_app; reflexivity).
    assert (Ha : index tour (length pre) = Ok a).
    { apply index_Ok. rewrite Ht, nth_error_app2 by lia.
      rewrite Nat.sub_diag. reflexivity. }
    assert (La : a < n self).
    { unfold valid in Hv. rewrite Forall_forall in Hv. apply Hv.
      rewrite Ht. apply in_or_app. right. left. reflexivity. }
    simpl seq. cbn [for_each]. cbv zeta. rewrite Ha. cbn [bind].
    assert (Hb : exists b,
               index tour ((length pre + 1) mod length tour) = Ok b /\
               b < n self /\
               combine (a :: suf) (tl (a :: suf) ++ firstn 1 tour)
               = (a, b) :: combine suf (tl suf ++ firstn 1 tour)).
    { destruct suf as [| b suf'].
      - replace (length pre + 1) with (length tour) by (simpl in Hlen; lia).
        rewrite Nat.Div0.mod_same.
        destruct tour as [| h tour']; [simpl in Hlen; lia |].
        exists h. split; [reflexivity |]. split; [| reflexivity].
        inversion Hv; assumption.
      - exists b. rewrite Nat.mod_small by (simpl in Hlen; lia).
        split; [| split; [| reflexivity]].
        + apply index_Ok. rewrite Ht, nth_error_app2 by lia.
          replace (length pre + 1 - length pre) with 1 by lia. reflexivity.
        + unfold valid in Hv. rewrite Forall_forall in Hv. apply Hv.
          rewrite Ht. apply in_or_app. right. right. left. reflexivity. }
    destruct Hb as (b & Eb & Lb & Ec).
    rewrite Eb. cbn [bind]. rewrite (cell_dist self a b Hwf La Lb). cbn [bind].
    rewrite Ec. cbn [sum_edges fold_left fst snd].
    specialize (IH (pre ++ [a]) (total + dist self a b)%Q).
    rewrite length_app in IH. simpl length in IH.
    replace (length pre + 1) with (S (length pre)) in IH by lia.
    apply IH. rewrite <- app_assoc. assumption.
Qed.

(** The tour distance is the sum over the edges of the cycle. *)
Lemma tour_distance_closed_form (self : TSPSolver.t) (tour : list nat) :
  well_formed self -> valid self tour ->
  _calculate_tour_distance self tour
  = Ok (sum_edges self (cycle_edges tour) 0%Q).
Proof.
  intros Hwf Hv. unfold _calculate_tour_distance, range.
  rewrite Nat.sub_0_r.
  apply (tour_distance_loop self tour Hwf Hv tour [] 0%Q). reflexivity.
Qed.

Lemma combine_app_same {A B : Type} (a1 a2 : list A) (b1 b2 : list B) :
  length a1 = length b1 ->
  combine (a1 ++ a2) (b1 ++ b2) = combine a1 b1 ++ combine a2 b2.
Proof.
  revert b1. induction a1 as [| x a1 IH]; intros [| y b1] H;
    simpl in *; try discriminate; [reflexivity |].
  rewrite IH by lia. reflexivity.
Qed.

Lemma cycle_edges_rotate_one (a : nat) (l : list nat) :
  Permutation (cycle_edges (a :: l)) (cycle_edges (l ++ [a])).
Proof.
  unfold cycle_edges. destruct l as [| b l]; [reflexivity |].
  simpl tl. simpl firstn. simpl app at 1.
  change (combine (a :: b :: l) (b :: l ++ [a]))
    with ((a, b) :: combine (b :: l) (l ++ [a])).
  replace (combine ((b :: l) ++ [a]) ((l ++ [a]) ++ [b]))
    with (combine (b :: l) (l ++ [a]) ++ [(a, b)]).
  - apply Permutation_cons_append.
  - rewrite combine_app_same; [reflexivity |].
    rewrite length_app. simpl. lia.
Qed.

Lemma cycle_edges_rotate (l1 : list nat) :
  forall l2, Permutation (cycle_edges (l1 ++ l2)) (cycle_edges (l2 ++ l1)).
Proof.
  induction l1 as [| a l1 IH]; intro l2.
  - rewrite app_nil_r. reflexivity.
  - simpl app at 1. rewrite cycle_edges_rotate_one.
    rewrite <- app_assoc, IH, <- app_assoc. reflexivity.
Qed.

(** X13: the tour distance is the sum, added up from left to right, of
    the matrix entries along the edges of the tour read as a cycle (every
    track to its successor, the last one back to the first); a tour cut
    elsewhere, [l2 ++ l1] for [l1 ++ l2], adds up the same edges in another
    order. *)
Theorem tour_distance_rotation (self : TSPSolver.t) (l1 l2 : list nat) :
  well_formed self -> valid self (l1 ++ l2) ->
  _calculate_tour_distance self (l1 ++ l2)
  = Ok (sum_edges self (cycle_edges (l1 ++ l2)) 0%Q) /\
  _calculate_tour_distance self (l2 ++ l1)
  = Ok (sum_edges self (cycle_edges (l2 ++ l1)) 0%Q) /\
  Permutation (cycle_edges (l1 ++ l2)) (cycle_edges (l2 ++ l1)).
Proof.
  intros Hwf Hv.
  assert (Hv' : valid self (l2 ++ l1)).
  { apply (valid_perm self _ (l1 ++ l2)); [apply Permutation_app_comm | assumption]. }
  split; [apply tour_distance_closed_form; assumption |].
  split; [apply tour_distance_closed_form; assumption |].
  apply cycle_edges_rotate.
Qed.

Lemma tour_distance_rotation_witness :
  exists self,
    TSPSolver.__init__ four_tracks = Ok self /\
    _calculate_tour_distance self ([0; 1] ++ [3; 2])
    = Ok (sum_edges self (cycle_edges ([0; 1] ++ [3; 2])) 0%Q) /\
    _calculate_tour_distance self ([3; 2] ++ [0; 1])
    = Ok (sum_edges self (cycle_edges ([3; 2] ++ [0; 1])) 0%Q) /\
    Permutation (cycle_edges ([0; 1] ++ [3; 2])) (cycle_edges ([3; 2] ++ [0; 1])).
Proof.
  destruct (init_spec four_tracks) as (self & E & Hn & Hwf).
  exists self. split; [assumption |].
  apply (tour_distance_rotation self [0; 1] [3; 2] Hwf).
  unfold valid. rewrite Hn. repeat constructor.
Defined.

(** ** Nearest neighbour *)

Lemma set_remove_absent (x : nat) (s : list nat) :
  ~ In x s -> set_remove x s = Raise KeyError.
Proof.
  induction s as [| y s IH]; intro H; simpl; [reflexivity |].
  destruct (Nat.eqb_spec x y) as [-> | _]; [exfalso; apply H; left; reflexivity |].
  rewrite IH; [reflexivity |]. intro Hin. apply H. right. assumption.
Qed.

(** X14: a start index that is not a track index makes nearest neighbour
    raise [KeyError] (from [unvisited.remove(start_index)]). *)
Theorem solve_nearest_neighbor_bad_start (self : TSPSolver.t) (start_index : nat) :
  n self <= start_index ->
  solve_nearest_neighbor self start_index = Raise KeyError.
Proof.
  intro H. unfold solve_nearest_neighbor, range. rewrite Nat.sub_0_r.
  rewrite set_remove_absent; [reflexivity |].
  intro Hin. apply in_seq in Hin. lia.
Qed.

Lemma solve_nearest_neighbor_bad_start_witness :
  exists self,
    TSPSolver.__init__ four_tracks = Ok self /\
    solve_nearest_neighbor self 4 = Raise KeyError.
Proof.
  destruct (init_spec four_tracks) as (self & E & Hn & Hwf).
  exists self. split; [assumption |].
  apply (solve_nearest_neighbor_bad_start self 4). rewrite Hn. simpl. lia.
Defined.

Lemma Qlt_bool_ge (x y : Q) : Qlt_bool x y = false -> (y <= x)%Q.
Proof.
  unfold Qlt_bool. intro H. apply negb_false_iff in H.
  apply Qle_bool_iff. assumption.
Qed.

Lemma Qlt_bool_true (x y : Q) : (x < y)%Q -> Qlt_bool x y = true.
Proof.
  intro H. destruct (Qlt_bool x y) eqn:E; [reflexivity |].
  apply Qlt_bool_ge in E. exfalso. apply (Qlt_not_le _ _ H E).
Qed.

Lemma seq_sorted (len : nat) : forall lo, StronglySorted lt (seq lo len).
Proof.
  induction len as [| len IH]; intro lo; simpl; constructor.
  - apply IH.
  - apply Forall_forall. intros x Hx. apply in_seq in Hx. lia.
Qed.

Lemma set_remove_sorted (x : nat) (s : list nat) :
  forall s', StronglySorted lt s -> set_remove x s = Ok s' ->
             StronglySorted lt s'.
Proof.
  induction s as [| y s IH]; intros s' Hs H; simpl in H; [discriminate |].
  inversion Hs as [| ? ? Hs' Hy]; subst.
  destruct (x =? y).
  - injection H as <-. assumption.
  - destruct (set_remove x s) as [s'' | e] eqn:E; simpl in H; [| discriminate].
    injection H as <-. constructor; [apply IH; auto |].
    destruct (set_remove_spec x s) as (s3 & E3 & Hp & _).
    + destruct (in_dec Nat.eq_dec x s) as [Hin | Hnin]; [assumption |].
      rewrite (set_remove_absent x s Hnin) in E. discriminate.
    + rewrite E in E3. injection E3 as <-.
      rewrite Forall_forall in *. intros z Hz. apply Hy.
      apply (Permutation_in z (symmetry Hp)). right. assumption.
Qed.

Lemma set_remove_middle (x : nat) (v1 v2 : list nat) :
  ~ In x v1 -> set_remove x (v1 ++ x :: v2) = Ok (v1 ++ v2).
Proof.
  induction v1 as [| y v1 IH]; intro H; simpl.
  - rewrite Nat.eqb_refl. reflexivity.
  - destruct (Nat.eqb_spec x y) as [-> | _];
      [exfalso; apply H; left; reflexivity |].
    rewrite IH; [reflexivity |]. intro Hin. apply H. right. assumption.
Qed.

Lemma sorted_middle (v1 v2 : list nat) (s : nat) :
  StronglySorted lt (v1 ++ s :: v2) -> forall c, In c v2 -> s < c.
Proof.
  induction v1 as [| y v1 IH]; simpl; intros H c Hc.
  - inversion H as [| ? ? _ Hall]; subst.
    rewrite Forall_forall in Hall. apply Hall. assumption.
  - inversion H; subst. apply IH; assumption.
Qed.

Section NearestNeighborGreedy.

Variable self : TSPSolver.t.
Hypothesis Hwf : well_formed self.

(** From a running best [(d0, s0)], the scan keeps it when nothing scanned
    is strictly nearer, and otherwise reports the first strictly nearest of
    the scanned indices. *)
Lemma nearest_scan_running (current : nat) (u : list nat) :
  current < n self -> valid self u ->
  forall d0 s0,
  exists d' s',
    nearest_scan self current u (Some d0) (Some s0) = Ok (Some d', Some s') /\
    ((s' = s0 /\ d' = d0 /\ forall x, In x u -> (d0 <= dist self current x)%Q) \/
     (exists v1 v2,
        u = v1 ++ s' :: v2 /\ d' = dist self current s' /\ (d' < d0)%Q /\
        (forall x, In x v1 -> (d' < dist self current x)%Q) /\
        (forall x, In x v2 -> (d' <= dist self current x)%Q))).
Proof.
  intro Hc. induction u as [| x u IH]; intros Hv d0 s0.
  - simpl. exists d0, s0. split; [reflexivity |]. left.
    repeat split. intros x [].
  - pose proof (Forall_inv Hv) as Hx. pose proof (Forall_inv_tail Hv) as Hu.
    simpl in Hx. simpl nearest_scan.
    rewrite (cell_dist self current x Hwf Hc Hx). cbn [bind lt_inf].
    destruct (Qlt_bool (dist self current x) d0) eqn:E.
    + apply Qlt_bool_lt in E.
      destruct (IH Hu (dist self current x) x)
        as (d' & s' & Es & [(-> & -> & Hall) | (v1 & v2 & -> & -> & Hlt & H1 & H2)]).
      * exists (dist self current x), x. split; [assumption |]. right.
        exists [], u. repeat split; auto. intros y [].
      * exists (dist self current s'), s'. split; [assumption |]. right.
        exists (x :: v1), v2. repeat split; auto.
        -- qlra.
        -- intros y [<- | Hy]; [assumption | apply H1; assumption].
    + apply Qlt_bool_ge in E.
      destruct (IH Hu d0 s0)
        as (d' & s' & Es & [(-> & -> & Hall) | (v1 & v2 & -> & -> & Hlt & H1 & H2)]).
      * exists d0, s0. split; [assumption |]. left. repeat split.
        intros y [<- | Hy]; [assumption | apply Hall; assumption].
      * exists (dist self current s'), s'. split; [assumption |]. right.
        exists (x :: v1), v2. repeat split; auto.
        intros y [<- | Hy]; [qlra | apply H1; assumption].
Qed.

(** From [(inf, None)] the scan reports the first nearest of the scanned
    indices. *)
Lemma nearest_scan_first_min (current : nat) (u : list nat) :
  current < n self -> valid self u -> u <> [] ->
  exists nd s v1 v2,
    nearest_scan self current u None None = Ok (nd, Some s) /\
    u = v1 ++ s :: v2 /\
    (forall x, In x v1 -> (dist self current s < dist self current x)%Q) /\
    (forall x, In x v2 -> (dist self current s <= dist self current x)%Q).
Proof.
  intros Hc Hv Hne. destruct u as [| x u]; [congruence |].
  pose proof (Forall_inv Hv) as Hx. pose proof (Forall_inv_tail Hv) as Hu.
  simpl in Hx. simpl nearest_scan.
  rewrite (cell_dist self current x Hwf Hc Hx). cbn [bind lt_inf].
  destruct (nearest_scan_running current u Hc Hu (dist self current x) x)
    as (d' & s' & Es & [(-> & -> & Hall) | (v1 & v2 & -> & -> & Hlt & H1 & H2)]).
  - exists (Some (dist self current x)), x, [], u.
    repeat split; auto. intros y [].
  - exists (Some (dist self current s')), s', (x :: v1), v2.
    repeat split; auto.
    intros y [<- | Hy]; [assumption | apply H1; assumption].
Qed.

Lemma nn_while_greedy (fuel : nat) :
  forall tour u current out,
    length u <= fuel ->
    current < n self ->
    valid self u ->
    StronglySorted lt u ->
    nn_while fuel self tour u current = Ok out ->
    exists rest, out = tour ++ rest /\ greedy self current rest.
Proof.
  induction fuel as [| fuel IH]; intros tour u current out Hl Hc Hv Hs H.
  - destruct u; simpl in Hl; [| lia]. simpl in H. injection H as <-.
    exists []. rewrite app_nil_r. split; [reflexivity | exact I].
  - destruct u as [| x0 u0] eqn:Eu.
    + simpl in H. injection H as <-.
      exists []. rewrite app_nil_r. split; [reflexivity | exact I].
    + rewrite <- Eu in *.
      destruct (nearest_scan_first_min current u Hc Hv)
        as (nd & s & v1 & v2 & Es & Euv & H1 & H2); [congruence |].
      assert (Hs1 : ~ In s v1).
      { intro Hin. apply H1 in Hin. apply (Qlt_irrefl _ Hin). }
      assert (Hr : set_remove s u = Ok (v1 ++ v2))
        by (rewrite Euv; apply set_remove_middle; assumption).
      assert (H' : nn_while fuel self (tour ++ [s]) (v1 ++ v2) s = Ok out).
      { rewrite Eu in H at 1. cbn [nn_while] in H. rewrite <- Eu in H.
        rewrite Es in H. cbn [bind snd] in H. rewrite Hr in H. exact H. }
      assert (Hvs : valid self (s :: v1 ++ v2)).
      { apply (valid_perm self _ u); [| assumption].
        rewrite Euv. apply Permutation_middle. }
      pose proof (Forall_inv Hvs) as Ls. simpl in Ls.
      destruct (IH (tour ++ [s]) (v1 ++ v2) s out) as (rest & -> & Hg).
      * rewrite Euv in Hl. rewrite length_app in *. simpl in Hl. lia.
      * assumption.
      * exact (Forall_inv_tail Hvs).
      * apply (set_remove_sorted s u); assumption.
      * assumption.
      * exists (s :: rest). rewrite <- app_assoc. split; [reflexivity |].
        split; [| assumption].
        assert (Hperm : forall c, In c rest -> In c (v1 ++ v2)).
        { intros c Hin.
          destruct (nn_while_spec self Hwf fuel (tour ++ [s]) (v1 ++ v2) s)
            as (out' & Eo & Hp);
            [rewrite Euv in Hl; rewrite length_app in *; simpl in Hl; lia
            | assumption | exact (Forall_inv_tail Hvs) |].
          rewrite H' in Eo. injection Eo as <-.
          apply Permutation_app_inv_l in Hp.
          apply (Permutation_in c Hp). assumption. }
        intros c Hin. apply Hperm in Hin. apply in_app_or in Hin.
        destruct Hin as [Hin | Hin]; [left; apply H1; assumption |].
        destruct (Qlt_le_dec (dist self current s) (dist self current c))
          as [Hlt | Hge]; [left; assumption |].
        right. split.
        -- apply Qle_antisym; [apply H2; assumption | assumption].
        -- rewrite Euv in Hs. apply (sorted_middle v1 v2 s Hs). assumption.
Qed.

End NearestNeighborGreedy.

(** X15: from a start index that is a track index, nearest neighbour
    returns a tour that begins with it and in which every later track is,
    among the tracks not yet placed, the one nearest to its predecessor, the
    smallest index winning a tie. *)
Theorem solve_nearest_neighbor_greedy
        (songs : list SongMetadata) (start_index : nat) :
  start_index < length songs ->
  exists self rest,
    TSPSolver.__init__ songs = Ok self /\
    solve_nearest_neighbor self start_index = Ok (start_index :: rest) /\
    greedy self start_index rest.
Proof.
  intro Hs.
  destruct (init_spec songs) as (self & E & Hn & Hwf).
  destruct (solve_nearest_neighbor_spec self Hwf start_index)
    as (tour & Et & Hp); [lia |].
  exists self.
  unfold solve_nearest_neighbor, range in Et. rewrite Nat.sub_0_r in Et.
  destruct (set_remove_spec start_index (seq 0 (n self)))
    as (u & Er & Hpu & _); [apply in_seq; lia |].
  rewrite Er in Et. cbn [bind] in Et.
  assert (Hv : valid self (start_index :: u)).
  { apply (valid_perm self _ (seq 0 (n self))); [symmetry; assumption |].
    apply Forall_forall. intros a Ha. apply in_seq in Ha. lia. }
  destruct (nn_while_greedy self Hwf (length u) [start_index] u start_index tour)
    as (rest & -> & Hg).
  - lia.
  - lia.
  - exact (Forall_inv_tail Hv).
  - apply (set_remove_sorted start_index (seq 0 (n self)));
      [apply seq_sorted | assumption].
  - assumption.
  - exists rest. split; [assumption |]. split; [| assumption].
    unfold solve_nearest_neighbor, range. rewrite Nat.sub_0_r, Er.
    cbn [bind]. assumption.
Qed.

Lemma solve_nearest_neighbor_greedy_witness :
  exists self rest,
    TSPSolver.__init__ four_tracks = Ok self /\
    solve_nearest_neighbor self 0 = Ok (0 :: rest) /\
    greedy self 0 rest.
Proof.
  apply (solve_nearest_neighbor_greedy four_tracks 0). simpl. lia.
Defined.

(** ** 2-opt: what it keeps *)

Section TwoOptKeeps.

Variable self : TSPSolver.t.
Variable P : list nat -> Prop.
Hypothesis Hrev :
  forall t i j, 1 <= i -> i < j -> j < length t -> P t -> P (reverse_slice t i j).

Lemma scan_j_keeps (i : nat) (js : list nat) :
  forall st st',
    1 <= i ->
    Forall (fun j => i < j < length (tour st)) js ->
    P (tour st) -> P (best_tour st) ->
    scan_j self i js st = Ok st' ->
    P (tour st') /\ P (best_tour st').
Proof.
  induction js as [| j js IH]; intros st st' Hi Hjs Ht Hb H; simpl in H.
  - injection H as <-. auto.
  - pose proof (Forall_inv Hjs) as Hj. pose proof (Forall_inv_tail Hjs) as Hjs'.
    simpl in Hj.
    destruct (j - i =? 1); [apply (IH st); assumption |].
    destruct (_calculate_tour_distance self (reverse_slice (tour st) i j))
      as [d | e]; simpl in H; [| discriminate].
    destruct (Qlt_bool d (best_distance st)).
    + injection H as <-. simpl.
      assert (P (reverse_slice (tour st) i j)) by (apply Hrev; auto; lia).
      auto.
    + apply (IH st); assumption.
Qed.

Lemma scan_i_keeps (ixs : list nat) :
  forall st st',
    Forall (fun i => 1 <= i) ixs ->
    P (tour st) -> P (best_tour st) ->
    scan_i self ixs st = Ok st' ->
    P (tour st') /\ P (best_tour st').
Proof.
  induction ixs as [| i ixs IH]; intros st st' Hixs Ht Hb H; simpl in H.
  - injection H as <-. auto.
  - pose proof (Forall_inv Hixs) as Hi. pose proof (Forall_inv_tail Hixs) as Hixs'.
    simpl in Hi.
    destruct (scan_j self i (range (i + 1) (length (tour st))) st)
      as [st1 | e] eqn:E; simpl in H; [| discriminate].
    destruct (scan_j_keeps i (range (i + 1) (length (tour st))) st st1 Hi)
      as [Ht1 Hb1]; try assumption.
    { apply Forall_forall. intros j Hj. unfold range in Hj.
      apply in_seq in Hj. lia. }
    destruct (improved st1).
    + injection H as <-. auto.
    + apply (IH st1); assumption.
Qed.

Lemma iterations_keeps (k : nat) :
  forall st st',
    P (tour st) -> P (best_tour st) ->
    iterations k self st = Ok st' ->
    P (tour st') /\ P (best_tour st').
Proof.
  induction k as [| k IH]; intros st st' Ht Hb H; simpl in H.
  - injection H as <-. auto.
  - destruct (scan_i self (range 1 (length (tour st) - 2))
                (mkOpt (best_tour st) (best_distance st) (tour st) false))
      as [st1 | e] eqn:E; simpl in H; [| discriminate].
    assert (Hr : Forall (fun i => 1 <= i) (range 1 (length (tour st) - 2))).
    { apply Forall_forall. intros i Hi. unfold range in Hi.
      apply in_seq in Hi. lia. }
    destruct (scan_i_keeps (range 1 (length (tour st) - 2))
                (mkOpt (best_tour st) (best_distance st) (tour st) false)
                st1 Hr Ht Hb E) as [Ht1 Hb1].
    destruct (improved st1); simpl in H.
    + apply (IH st1); assumption.
    + injection H as <-. auto.
Qed.

Lemma improve_2opt_keeps (tour out : list nat) (k : nat) :
  P tour -> improve_2opt self tour k = Ok out -> P out.
Proof.
  intros Ht H. unfold improve_2opt in H.
  destruct (_calculate_tour_distance self tour) as [d | e]; simpl in H;
    [| discriminate].
  destruct (iterations k self (mkOpt tour d tour false)) as [st | e] eqn:E;
    simpl in H; [| discriminate].
  injection H as <-.
  apply (iterations_keeps k (mkOpt tour d tour false) st Ht Ht E).
Qed.

End TwoOptKeeps.

Lemma last_app_nonempty {A : Type} (l1 l2 : list A) (d : A) :
  l2 <> [] -> last (l1 ++ l2) d = last l2 d.
Proof.
  intro H. induction l1 as [| x l1 IH]; [reflexivity |].
  simpl app. simpl last. rewrite IH.
  destruct (l1 ++ l2) eqn:E; [| reflexivity].
  apply app_eq_nil in E. destruct E. contradiction.
Qed.

Lemma reverse_slice_ends (t : list nat) (i j : nat) :
  1 <= i -> i < j -> j < length t ->
  length (reverse_slice t i j) = length t /\
  hd_error (reverse_slice t i j) = hd_error t /\
  last (reverse_slice t i j) 0 = last t 0.
Proof.
  intros Hi Hij Hj. split; [| split].
  - apply Permutation_length. apply reverse_slice_perm. lia.
  - unfold reverse_slice. destruct t as [| a t]; [simpl in Hj; lia |].
    destruct i as [| i]; [lia |]. reflexivity.
  - unfold reverse_slice.
    assert (Hne : skipn j t <> []).
    { intro E. apply (f_equal (@length nat)) in E.
      rewrite length_skipn in E. simpl in E. lia. }
    rewrite app_assoc, last_app_nonempty by assumption.
    rewrite <- (firstn_skipn j t) at 2.
    rewrite last_app_nonempty by assumption. reflexivity.
Qed.

(** X16: [improve_2opt] returns a rearrangement of its input that has the
    same length, the same first track and the same last track: the
    reversals never reach position 0 or the last position. *)
Theorem improve_2opt_keeps_ends
        (songs : list SongMetadata) (tour : list nat) (max_iterations : nat) :
  Forall (fun a => a < length songs) tour ->
  exists self out,
    TSPSolver.__init__ songs = Ok self /\
    improve_2opt self tour max_iterations = Ok out /\
    Permutation out tour /\
    hd_error out = hd_error tour /\
    last out 0 = last tour 0.
Proof.
  intro Hv.
  destruct (init_spec songs) as (self & E & Hn & Hwf).
  assert (Hv' : valid self tour) by (unfold valid; rewrite Hn; assumption).
  destruct (improve_2opt_spec self tour max_iterations Hwf Hv')
    as (out & _ & _ & Eo & Hp & _).
  exists self, out. split; [assumption |]. split; [assumption |].
  split; [assumption |].
  pose proof (improve_2opt_keeps self
                (fun t => length t = length tour /\
                          hd_error t = hd_error tour /\
                          last t 0 = last tour 0)) as K.
  destruct (K) with (tour := tour) (out := out) (k := max_iterations)
    as (_ & Hh & Hl); auto.
  intros t i j Hi Hij Hj (Hlen & Hh & Hl).
  destruct (reverse_slice_ends t i j Hi Hij Hj) as (L1 & L2 & L3).
  repeat split; congruence.
Qed.

Lemma improve_2opt_keeps_ends_witness :
  exists self out,
    TSPSolver.__init__ four_tracks = Ok self /\
    improve_2opt self [0; 1; 3; 2] 1000 = Ok out /\
    Permutation out [0; 1; 3; 2] /\
    hd_error out = hd_error [0; 1; 3; 2] /\
    last out 0 = last [0; 1; 3; 2] 0.
Proof.
  apply (improve_2opt_keeps_ends four_tracks [0; 1; 3; 2] 1000).
  repeat constructor.
Defined.

(** X17: a tour of at most three tracks comes back from [improve_2opt]
    unchanged (there is no pair of positions to try), and so does any tour
    when the iteration cap is 0. *)
Theorem improve_2opt_nothing_to_do
        (songs : list SongMetadata) (tour : list nat) (max_iterations : nat) :
  Forall (fun a => a < length songs) tour ->
  length tour <= 3 \/ max_iterations = 0 ->
  exists self,
    TSPSolver.__init__ songs = Ok self /\
    improve_2opt self tour max_iterations = Ok tour.
Proof.
  intros Hv Hcase.
  destruct (init_spec songs) as (self & E & Hn & Hwf).
  assert (Hv' : valid self tour) by (unfold valid; rewrite Hn; assumption).
  exists self. split; [assumption |].
  unfold improve_2opt.
  destruct (calculate_tour_distance_ok self tour Hwf Hv') as (d & ->).
  cbn [bind].
  destruct max_iterations as [| k]; [reflexivity |].
  destruct Hcase as [Hlen | Hk]; [| discriminate].
  cbn [iterations TSPSolver.tour best_tour best_distance].
  unfold range. replace (length tour - 2 - 1) with 0 by lia.
  reflexivity.
Qed.

Lemma improve_2opt_nothing_to_do_witness :
  exists self,
    TSPSolver.__init__ four_tracks = Ok self /\
    improve_2opt self [2; 0; 3] 1000 = Ok [2; 0; 3].
Proof.
  apply (improve_2opt_nothing_to_do four_tracks [2; 0; 3] 1000).
  - repeat constructor.
  - left. simpl. lia.
Defined.

(** ** The solver: the best of the candidates *)

(** X18: the tour that [solve] returns is at most as long as the 2-opt
    result of nearest neighbour from each of the start indices it tries
    (the first five track indices). *)
Theorem solve_best_of_starts (songs : list SongMetadata) (start : nat) :
  2 <= length songs -> start < 5 -> start < length songs ->
  exists self best nn out d_best d,
    TSPSolver.__init__ songs = Ok self /\
    solve self = Ok (Some best) /\
    solve_nearest_neighbor self start = Ok nn /\
    improve_2opt self nn max_iterations_default = Ok out /\
    _calculate_tour_distance self best = Ok d_best /\
    _calculate_tour_distance self out = Ok d /\
    (d_best <= d)%Q.
Proof.
  intros H2 H5 Hs.
  destruct (init_spec songs) as (self & E & Hn & Hwf).
  exists self. unfold solve.
  destruct (Nat.leb_spec (n self) 1) as [Hle | Hgt]; [lia |].
  unfold range. rewrite Nat.sub_0_r.
  pose (Cand := fun (s : nat) (d : Q) =>
          exists nn out d',
            solve_nearest_neighbor self s = Ok nn /\
            improve_2opt self nn max_iterations_default = Ok out /\
            _calculate_tour_distance self out = Ok d' /\ (d <= d')%Q).
  pose (Inv := fun (k : nat) (acc : option (list nat) * option Q) =>
          (k = 0 /\ acc = (None, None)) \/
          (exists t d, acc = (Some t, Some d) /\
                       _calculate_tour_distance self t = Ok d /\
                       forall s, s < k -> Cand s d)).
  destruct (for_each_seq_inv Inv
              (fun start (acc : option (list nat) * option Q) =>
                 tour <- solve_nearest_neighbor self start ;;
                 tour <- improve_2opt self tour max_iterations_default ;;
                 distance <- _calculate_tour_distance self tour ;;
                 if lt_inf distance (snd acc)
                 then Ok (Some tour, Some distance)
                 else Ok acc)
              (Nat.min 5 (n self)) 0 (None, None))
    as (acc & Eacc & Hacc).
  - left. auto.
  - intros k acc Hk Hacc.
    destruct (solve_nearest_neighbor_spec self Hwf k) as (nn & Enn & Hnn);
      [lia |].
    assert (Hv : valid self nn).
    { apply (valid_perm self _ (seq 0 (n self))); [assumption |].
      apply Forall_forall. intros a Ha. apply in_seq in Ha. lia. }
    destruct (improve_2opt_spec self nn max_iterations_default Hwf Hv)
      as (out & d_in & d_out & Eo & Hp & _ & Ed & _).
    rewrite Enn. cbn [bind]. rewrite Eo. cbn [bind]. rewrite Ed. cbn [bind].
    assert (Hk_cand : forall d, (d <= d_out)%Q -> Cand k d).
    { intros d Hd. exists nn, out, d_out. auto. }
    destruct Hacc as [[-> ->] | (t & d & -> & Et & Hall)]; cbn [snd lt_inf].
    + eexists. split; [reflexivity |]. right.
      exists out, d_out. split; [reflexivity |]. split; [assumption |].
      intros s Hlt. replace s with 0 by lia. apply Hk_cand. apply Qle_refl.
    + destruct (Qlt_bool d_out d) eqn:Elt.
      * apply Qlt_bool_lt in Elt.
        eexists. split; [reflexivity |]. right.
        exists out, d_out. split; [reflexivity |]. split; [assumption |].
        intros s Hlt. destruct (Nat.eq_dec s k) as [-> | Hne].
        -- apply Hk_cand. apply Qle_refl.
        -- destruct (Hall s) as (nn' & out' & d' & A & B & C & D); [lia |].
           exists nn', out', d'. repeat split; auto. qlra.
      * apply Qlt_bool_ge in Elt.
        eexists. split; [reflexivity |]. right.
        exists t, d. split; [reflexivity |]. split; [assumption |].
        intros s Hlt. destruct (Nat.eq_dec s k) as [-> | Hne].
        -- apply Hk_cand. assumption.
        -- apply Hall. lia.
  - rewrite Eacc. cbn [bind fst].
    destruct Hacc as [[H0 _] | (t & d & -> & Et & Hall)]; [lia |].
    destruct (Hall start) as (nn & out & d' & A & B & C & D); [lia |].
    exists t, nn, out, d, d'. cbn [fst]. auto 10.
Qed.

Lemma solve_best_of_starts_witness :
  exists self best nn out d_best d,
    TSPSolver.__init__ four_tracks = Ok self /\
    solve self = Ok (Some best) /\
    solve_nearest_neighbor self 3 = Ok nn /\
    improve_2opt self nn max_iterations_default = Ok out /\
    _calculate_tour_distance self best = Ok d_best /\
    _calculate_tour_distance self out = Ok d /\
    (d_best <= d)%Q.
Proof.
  apply (solve_best_of_starts four_tracks 3); simpl; lia.
Defined.

(** ** The crossfade trigger point *)

(** X19: the compatibility score lies in [0, 1]; the crossfade start ratio
    0.8 + compatibility * 0.15 of every pair of tracks is at least 0.8 and at
    most what the same expression gives at compatibility 1. *)
Theorem crossfade_start_ratio_bounds (song next_song : SongMetadata) :
  (0 <= _calculate_song_compatibility song next_song <= 1 /\
   8 # 10 <= crossfade_start_ratio song next_song /\
   crossfade_start_ratio song next_song <= (8 # 10) + 1 * (15 # 100))%Q.
Proof.
  assert (H : (0 <= _calculate_song_compatibility song next_song <= 1)%Q).
  { unfold _calculate_song_compatibility. cbv zeta. split.
    - apply Q.le_max_l.
    - apply Q.max_lub; [discriminate |]. apply Q.le_min_l. }
  split; [assumption |].
  unfold crossfade_start_ratio. destruct H as [H0 H1]. split; qlra.
Qed.

(** ** Normal playback at the end of the track *)

Lemma limit_scale_zeros_map (k : nat) (w : R) :
  map (fun f => (soft_limit (fst f), soft_limit (snd f)))
      (map (fun f => (fst f * w, snd f * w)%R) (np_zeros k))
  = np_zeros k.
Proof. apply limit_scale_zeros. Qed.


(** The end-of-track render, computed. *)
Lemma render_end_of_track_eq (self : AudioMixer.t) (frame_count : nat)
        (cur : buffer) :
  is_crossfading self = false ->
  current_audio self = Some cur ->
  length cur <= current_position self + frame_count ->
  _generate_audio_chunk self frame_count
  = Ok (set_current_position self (length cur),
        limit (scale (skipn (current_position self) cur) (master_volume self))
        ++ np_zeros (frame_count - (length cur - current_position self))).
Proof.
  intros Hx Hc Hge. unfold _generate_audio_chunk.
  rewrite Hx, Hc. simpl negb. cbv iota.
  rewrite (proj2 (Nat.ltb_ge _ _) Hge).
  set (p := current_position self) in *.
  destruct (Nat.ltb_spec 0 (length cur - p)) as [Hr | Hr].
  - destruct (assign_ok (np_zeros frame_count) 0 (length cur - p)
                (slice cur p (length cur))) as (Ea & _).
    + lia.
    + rewrite np_zeros_length. lia.
    + rewrite slice_length. lia.
    + rewrite Ea. cbn [bind fst snd imul read firstn app].
      unfold slice. rewrite firstn_all2 by (rewrite length_skipn; lia).
      rewrite skipn_np_zeros.
      unfold scale at 1. rewrite map_app. fold (scale (skipn p cur) (master_volume self)).
      rewrite map_app. fold (limit (scale (skipn p cur) (master_volume self))).
      rewrite limit_scale_zeros_map. reflexivity.
  - cbn [bind fst snd imul read].
    rewrite skipn_all2 by lia.
    replace (frame_count - (length cur - p)) with frame_count by lia.
    simpl app. rewrite limit_scale_zeros. reflexivity.
Qed.

(** X20: in normal playback with at most [frame_count] frames left, the
    block is what is left of the track after master volume and limiter,
    followed by zeros (all zeros when nothing is left); the read cursor
    stops at the end of the track and, other than in the middle of the
    track, the stored samples are not touched. *)
Theorem render_end_of_track (self : AudioMixer.t) (frame_count : nat)
        (cur : buffer) :
  is_crossfading self = false ->
  current_audio self = Some cur ->
  length cur <= current_position self + frame_count ->
  _generate_audio_chunk self frame_count
  = Ok (set_current_position self (length cur),
        limit (scale (skipn (current_position self) cur) (master_volume self))
        ++ np_zeros (frame_count - (length cur - current_position self))).
Proof.
  apply render_end_of_track_eq.
Qed.

Lemma render_end_of_track_witness :
  _generate_audio_chunk (set_current_position playing_ones 198) 4
  = Ok (set_current_position (set_current_position playing_ones 198)
                             (length (ones 200)),
        limit (scale (skipn 198 (ones 200)) (8 / 10))
        ++ np_zeros (4 - (length (ones 200) - 198))).
Proof.
  apply (render_end_of_track (set_current_position playing_ones 198) 4 (ones 200)).
  - reflexivity.
  - reflexivity.
  - unfold ones. rewrite repeat_length. simpl. lia.
Defined.

(** ** A crossfade, once started, ends *)

Lemma callback_not_crossfading (self : AudioMixer.t) (frame_count : nat) :
  is_crossfading self = false ->
  is_crossfading (fst (_audio_callback self frame_count)) = false.
Proof.
  intro Hx. unfold _audio_callback.
  destruct (negb (is_playing self)); [assumption |].
  destruct (current_audio self) as [cur |] eqn:Hc; simpl orb; cbv iota;
    [| assumption].
  destruct (Nat.lt_ge_cases (current_position self + frame_count) (length cur))
    as [Hlt | Hge].
  - rewrite (generate_playing_view self frame_count cur Hx Hc Hlt). reflexivity.
  - destruct (generate_playing_tail self frame_count cur Hx Hc Hge)
      as (output & E & _).
    rewrite E. simpl. assumption.
Qed.

Lemma render_all_not_crossfading (frame_counts : list nat) :
  forall self,
    is_crossfading self = false ->
    is_crossfading (render_all self frame_counts) = false.
Proof.
  unfold render_all.
  induction frame_counts as [| fc rest IH]; intros self Hx; simpl;
    [assumption |].
  apply IH. apply callback_not_crossfading. assumption.
Qed.

(** One callback while crossfading, with a current buffer and playing. *)
Lemma callback_crossfading_step (self : AudioMixer.t) (frame_count : nat) :
  is_playing self = true ->
  current_audio self <> None ->
  is_crossfading self = true ->
  crossfade_position self < crossfade_samples self ->
  1 <= frame_count ->
  fst (_audio_callback self frame_count)
  = if crossfade_samples self - crossfade_position self <=? frame_count
    then switched self (crossfade_samples self - crossfade_position self)
    else advanced self frame_count.
Proof.
  intros Hp Hc Hx Hlt H1. unfold _audio_callback. rewrite Hp.
  destruct (current_audio self) as [cur |] eqn:Ec; [| congruence].
  simpl orb. cbv iota.
  destruct (generate_crossfading self frame_count Hx)
    as (self' & output & E & _ & G).
  rewrite G. simpl fst.
  destruct (Nat.leb_spec (crossfade_samples self - crossfade_position self)
                         frame_count) as [Hle | Hgt].
  - rewrite crossfade_finishing in E by assumption. congruence.
  - rewrite crossfade_continuing in E by lia. congruence.
Qed.

(** X21: with playback running and a current buffer, a crossfade that has
    been started ends: once the callbacks have asked for at least as many
    frames as were left of the window, the mixer is no longer crossfading. *)
Theorem crossfade_ends (frame_counts : list nat) :
  forall self : AudioMixer.t,
    is_playing self = true ->
    current_audio self <> None ->
    is_crossfading self = true ->
    crossfade_position self < crossfade_samples self ->
    Forall (fun frame_count => 1 <= frame_count) frame_counts ->
    crossfade_samples self - crossfade_position self
    <= fold_left Nat.add frame_counts 0 ->
    is_crossfading (render_all self frame_counts) = false.
Proof.
  induction frame_counts as [| fc rest IH];
    intros self Hp Hc Hx Hlt Hall Hsum.
  - simpl in Hsum. lia.
  - pose proof (Forall_inv Hall) as H1. pose proof (Forall_inv_tail Hall) as Hrest.
    simpl in H1.
    unfold render_all. simpl fold_left.
    fold (render_all (fst (_audio_callback self fc)) rest).
    rewrite (callback_crossfading_step self fc Hp Hc Hx Hlt H1).
    destruct (Nat.leb_spec (crossfade_samples self - crossfade_position self) fc)
      as [Hle | Hgt].
    + apply render_all_not_crossfading. reflexivity.
    + apply IH; simpl; try assumption.
      * lia.
      * simpl in Hsum.
        assert (G : forall l a, fold_left Nat.add l a = a + fold_left Nat.add l 0).
        { induction l as [| x l IHl]; intro a; simpl; [lia |].
          rewrite (IHl (a + x)), (IHl x). lia. }
        rewrite (G rest fc) in Hsum. lia.
Qed.

Lemma crossfade_ends_witness :
  is_crossfading (render_all late_crossfade [16; 16]) = false.
Proof.
  apply (crossfade_ends [16; 16] late_crossfade).
  - reflexivity.
  - discriminate.
  - reflexivity.
  - simpl. lia.
  - repeat constructor.
  - simpl. lia.
Defined.

(** ** The read cursor and the playback report *)

(** Normal playback never moves the cursor past the end of the track, and
    never back. *)
Lemma callback_cursor_in_track (self : AudioMixer.t) (frame_count : nat)
      (cur : buffer) :
  is_crossfading self = false ->
  current_audio self = Some cur ->
  current_position self <= length cur ->
  exists cur',
    current_audio (fst (_audio_callback self frame_count)) = Some cur' /\
    length cur' = length cur /\
    current_position self
    <= current_position (fst (_audio_callback self frame_count)) /\
    current_position (fst (_audio_callback self frame_count)) <= length cur' /\
    sample_rate (fst (_audio_callback self frame_count)) = sample_rate self.
Proof.
  intros Hx Hc Hpos. unfold _audio_callback.
  destruct (negb (is_playing self)); simpl orb; cbv iota.
  { exists cur. simpl. auto. }
  rewrite Hc.
  destruct (Nat.lt_ge_cases (current_position self + frame_count) (length cur))
    as [Hlt | Hge].
  - rewrite (generate_playing_view self frame_count cur Hx Hc Hlt). simpl.
    eexists. split; [reflexivity |].
    unfold scaled_in_place.
    rewrite !length_app, length_firstn, scale_length, slice_length, length_skipn.
    repeat split; lia.
  - destruct (generate_playing_tail self frame_count cur Hx Hc Hge)
      as (output & E & _).
    rewrite E. simpl. exists cur. rewrite Hc. repeat split; auto.
Qed.

(** X22: from a mixer that is not crossfading and whose cursor is inside
    its track, any sequence of callbacks leaves a mixer for which
    [get_playback_info] (sample rate not 0) reports a progress between 0
    and 1 and a remaining time that is not negative. *)
Theorem playback_info_in_range (frame_counts : list nat) :
  forall (self : AudioMixer.t) (cur : buffer),
    is_crossfading self = false ->
    current_audio self = Some cur ->
    current_position self <= length cur ->
    sample_rate self <> 0 ->
    exists playing progress remaining_time crossfading next_prepared,
      get_playback_info (render_all self frame_counts)
      = Some (Info playing progress remaining_time crossfading next_prepared) /\
      (0 <= progress <= 1)%Q /\ (0 <= remaining_time)%Q /\
      crossfading = false.
Proof.
  induction frame_counts as [| fc rest IH]; intros self cur Hx Hc Hpos Hsr.
  - unfold render_all. simpl fold_left. unfold get_playback_info.
    rewrite Hc, (proj2 (Nat.eqb_neq _ _) Hsr).
    eexists. eexists. eexists. eexists. eexists.
    split; [reflexivity |].
    split; [| split; [| assumption]].
    + destruct (Nat.ltb_spec 0 (length cur)) as [Hl | Hl];
        [| split; discriminate].
      split.
      * apply Qle_shift_div_l.
        -- change 0%Q with (inject_Z 0). rewrite <- Zlt_Qlt. lia.
        -- rewrite Qmult_0_l. change 0%Q with (inject_Z 0).
           rewrite <- Zle_Qle. lia.
      * apply Qle_shift_div_r.
        -- change 0%Q with (inject_Z 0). rewrite <- Zlt_Qlt. lia.
        -- rewrite Qmult_1_l. rewrite <- Zle_Qle. lia.
    + apply Qle_shift_div_l.
      * change 0%Q with (inject_Z 0). rewrite <- Zlt_Qlt. lia.
      * rewrite Qmult_0_l. change 0%Q with (inject_Z 0).
        rewrite <- Zle_Qle. lia.
  - unfold render_all. simpl fold_left.
    fold (render_all (fst (_audio_callback self fc)) rest).
    destruct (callback_cursor_in_track self fc cur Hx Hc Hpos)
      as (cur' & Ec' & Hl' & _ & Hp' & Hs').
    apply (IH _ cur').
    + apply callback_not_crossfading. assumption.
    + assumption.
    + assumption.
    + rewrite Hs'. assumption.
Qed.

Lemma playback_info_in_range_witness :
  exists playing progress remaining_time crossfading next_prepared,
    get_playback_info (render_all playing_ones [64; 64; 64; 64])
    = Some (Info playing progress remaining_time crossfading next_prepared) /\
    (0 <= progress <= 1)%Q /\ (0 <= remaining_time)%Q /\
    crossfading = false.
Proof.
  apply (playback_info_in_range [64; 64; 64; 64] playing_ones (ones 200)).
  - reflexivity.
  - reflexivity.
  - simpl. lia.
  - discriminate.
Defined.

(** X23: while crossfading the cursor is not held back at the end of the
    track: a callback that leaves the window unfinished moves it by the
    whole block, and when that passes the end of the current buffer
    [get_playback_info] reports a progress above 1 and a negative remaining
    time. *)
Theorem crossfade_cursor_overruns (self : AudioMixer.t) (frame_count : nat)
        (cur : buffer) :
  is_playing self = true ->
  current_audio self = Some cur ->
  is_crossfading self = true ->
  1 <= frame_count ->
  crossfade_position self + frame_count < crossfade_samples self ->
  length cur < current_position self + frame_count ->
  0 < length cur ->
  sample_rate self <> 0 ->
  exists progress remaining_time next_prepared,
    get_playback_info (fst (_audio_callback self frame_count))
    = Some (Info true progress remaining_time true next_prepared) /\
    (1 < progress)%Q /\ (remaining_time < 0)%Q.
Proof.
  intros Hp Hc Hx H1 Hcp Hover Hlen Hsr.
  rewrite (callback_crossfading_step self frame_count Hp) by
      (try assumption; try congruence; lia).
  destruct (Nat.leb_spec (crossfade_samples self - crossfade_position self)
                         frame_count) as [Hle | _]; [lia |].
  unfold get_playback_info, advanced. simpl.
  rewrite Hc, Hp, Hx, (proj2 (Nat.eqb_neq _ _) Hsr).
  rewrite (proj2 (Nat.ltb_lt _ _) Hlen).
  eexists. eexists. eexists. split; [reflexivity |]. split.
  - apply Qlt_shift_div_l.
    + change 0%Q with (inject_Z 0). rewrite <- Zlt_Qlt. lia.
    + rewrite Qmult_1_l. rewrite <- Zlt_Qlt. lia.
  - apply Qlt_shift_div_r.
    + change 0%Q with (inject_Z 0). rewrite <- Zlt_Qlt. lia.
    + rewrite Qmult_0_l. change 0%Q with (inject_Z 0).
      rewrite <- Zlt_Qlt. lia.
Qed.

Lemma crossfade_cursor_overruns_witness :
  exists progress remaining_time next_prepared,
    get_playback_info
      (fst (_audio_callback (set_current_position late_crossfade 190) 16))
    = Some (Info true progress remaining_time true next_prepared) /\
    (1 < progress)%Q /\ (remaining_time < 0)%Q.
Proof.
  apply (crossfade_cursor_overruns (set_current_position late_crossfade 190)
                                   16 (ones 200)).
  - reflexivity.
  - reflexivity.
  - reflexivity.
  - lia.
  - simpl. lia.
  - unfold ones. rewrite repeat_length. simpl. lia.
  - unfold ones. rewrite repeat_length. lia.
  - discriminate.
Defined.

(** ** What a crossfade block contains *)

Lemma nth_error_slice (a : buffer) (lo hi k : nat) :
  k < hi - lo -> nth_error (slice a lo hi) k = nth_error a (lo + k).
Proof.
  intro H. unfold slice. rewrite nth_error_firstn, nth_error_skipn.
  destruct (Nat.ltb_spec k (hi - lo)); [reflexivity | lia].
Qed.

Lemma nth_error_add (a b : buffer) (k : nat) (x y : frame) :
  nth_error a k = Some x -> nth_error b k = Some y ->
  nth_error (add a b) k
  = Some ((fst x + fst y)%R, (snd x + snd y)%R).
Proof.
  revert b k. induction a as [| a0 a IH]; intros [| b0 b] [| k] Ha Hb;
    simpl in *; try discriminate.
  - injection Ha as <-. injection Hb as <-. reflexivity.
  - apply IH; assumption.
Qed.

Lemma nth_error_scale (a : buffer) (w : R) (k : nat) (x : frame) :
  nth_error a k = Some x ->
  nth_error (scale a w) k = Some ((fst x * w)%R, (snd x * w)%R).
Proof.
  intro H. unfold scale.
  apply (map_nth_error (fun f : frame => (fst f * w, snd f * w)%R) k a H).
Qed.

Lemma nth_error_limit (a : buffer) (k : nat) (x : frame) :
  nth_error a k = Some x ->
  nth_error (limit a) k = Some (soft_limit (fst x), soft_limit (snd x)).
Proof.
  intro H. unfold limit.
  apply (map_nth_error
           (fun f : frame => (soft_limit (fst f), soft_limit (snd f))) k a H).
Qed.

(** X24: in a crossfade block that does not reach past the window, frame k
    is the frame [cursor + k] of the current track times the weight
    1 - crossfade_position / window, plus frame k of the next track (counted
    from its start in every block) times crossfade_position / window, then
    master volume and limiter; the weights are those of the start of the
    block for all its frames. *)
Theorem crossfade_block_frame (self : AudioMixer.t) (frame_count k : nat)
        (cur nxt : buffer) (c x : frame) :
  is_playing self = true ->
  is_crossfading self = true ->
  current_audio self = Some cur ->
  next_audio self = Some nxt ->
  crossfade_position self + frame_count <= crossfade_samples self ->
  current_position self + frame_count <= length cur ->
  frame_count <= length nxt ->
  k < frame_count ->
  nth_error cur (current_position self + k) = Some c ->
  nth_error nxt k = Some x ->
  let fade := (INR (crossfade_position self) / INR (crossfade_samples self))%R in
  nth_error (snd (_audio_callback self frame_count)) k
  = Some (soft_limit ((fst c * (1 - fade) + fst x * fade) * master_volume self),
          soft_limit ((snd c * (1 - fade) + snd x * fade) * master_volume self)).
Proof.
  intros Hp Hx Hc Hn Hcs Hpos Hnl Hk Ec Ex fade.
  unfold _audio_callback. rewrite Hp, Hc. simpl orb. cbv iota.
  destruct (generate_crossfading self frame_count Hx)
    as (self' & output & E & _ & G).
  assert (Eo : output = mixed_chunk self frame_count /\
               master_volume self' = master_volume self).
  { destruct (Nat.eq_dec (crossfade_position self + frame_count)
                         (crossfade_samples self)) as [Heq | Hne].
    - rewrite crossfade_finishing in E by lia.
      replace (crossfade_samples self - crossfade_position self)
        with frame_count in E by lia.
      rewrite Nat.sub_diag in E. simpl np_zeros in E. rewrite app_nil_r in E.
      injection E as <- <-. split; reflexivity.
    - rewrite crossfade_continuing in E by lia.
      injection E as <- <-. split; reflexivity. }
  destruct Eo as [-> Hmv]. rewrite G, Hmv. simpl snd.
  assert (Em : nth_error (mixed_chunk self frame_count) k
               = Some ((fst c * (1 - fade) + fst x * fade)%R,
                       (snd c * (1 - fade) + snd x * fade)%R)).
  { unfold mixed_chunk, current_chunk, next_chunk. cbv zeta.
    rewrite Hc, Hn.
    rewrite (proj2 (Nat.leb_le _ _) Hpos), (proj2 (Nat.leb_le _ _) Hnl).
    apply (nth_error_add _ _ k (fst c * (1 - fade), snd c * (1 - fade))%R
                               (fst x * fade, snd x * fade)%R).
    - apply nth_error_scale. rewrite nth_error_slice by lia. assumption.
    - apply nth_error_scale. rewrite nth_error_slice by lia. assumption. }
  apply (nth_error_limit _ k
           ((fst c * (1 - fade) + fst x * fade) * master_volume self,
            (snd c * (1 - fade) + snd x * fade) * master_volume self)%R).
  apply (nth_error_scale _ _ k _ Em).
Qed.

Lemma crossfade_block_frame_witness :
  let fade := (INR 70 / INR 100)%R in
  nth_error (snd (_audio_callback late_crossfade 16)) 5
  = Some (soft_limit ((1 * (1 - fade) + 0 * fade) * (8 / 10)),
          soft_limit ((1 * (1 - fade) + 0 * fade) * (8 / 10))).
Proof.
  apply (crossfade_block_frame late_crossfade 16 5 (ones 200) (np_zeros 200)
                               (1%R, 1%R) (0%R, 0%R)).
  - reflexivity.
  - reflexivity.
  - reflexivity.
  - reflexivity.
  - simpl. lia.
  - unfold ones. rewrite repeat_length. simpl. lia.
  - rewrite np_zeros_length. lia.
  - lia.
  - reflexivity.
  - reflexivity.
Defined.

(** ** Normal playback, block after block *)

Lemma slice_append (a : buffer) (lo m k : nat) :
  slice a lo (lo + m) ++ slice a (lo + m) (lo + m + k) = slice a lo (lo + m + k).
Proof.
  unfold slice.
  replace (lo + m - lo) with m by lia.
  replace (lo + m + k - (lo + m)) with k by lia.
  replace (lo + m + k - lo) with (m + k) by lia.
  rewrite <- (firstn_skipn m (firstn (m + k) (skipn lo a))).
  rewrite firstn_firstn, Nat.min_l by lia. f_equal.
  rewrite skipn_firstn_comm, skipn_skipn.
  replace (m + k - m) with k by lia. rewrite (Nat.add_comm m lo). reflexivity.
Qed.

Lemma skipn_scaled_in_place (cur : buffer) (lo hi : nat) (w : R) :
  lo <= hi -> hi <= length cur ->
  skipn hi (scaled_in_place cur lo hi w) = skipn hi cur.
Proof.
  intros H1 H2. unfold scaled_in_place.
  rewrite app_assoc, skipn_app.
  rewrite skipn_all2
    by (rewrite length_app, length_firstn, scale_length, slice_length; lia).
  rewrite length_app, length_firstn, scale_length, slice_length.
  replace (hi - (Nat.min lo (length cur) + Nat.min (hi - lo) (length cur - lo)))
    with 0 by lia.
  reflexivity.
Qed.

Lemma limit_scale_app (a b : buffer) (w : R) :
  limit (scale (a ++ b) w) = limit (scale a w) ++ limit (scale b w).
Proof. unfold limit, scale. rewrite !map_app. reflexivity. Qed.


(** X25: normal playback plays the track once and in order: from a mixer
    that is playing, not crossfading, with its cursor inside the track, the
    blocks of any sequence of callbacks, put end to end, are the samples of
    the track from the cursor on, each after master volume and limiter,
    followed by zeros once the track is over. *)
Theorem playback_is_gapless (frame_counts : list nat) :
  forall (self : AudioMixer.t) (cur : buffer),
    is_playing self = true ->
    is_crossfading self = false ->
    current_audio self = Some cur ->
    current_position self <= length cur ->
    played self frame_counts
    = limit (scale (slice cur (current_position self)
                          (current_position self
                           + fold_left Nat.add frame_counts 0))
                   (master_volume self))
      ++ np_zeros (fold_left Nat.add frame_counts 0
                   - (length cur - current_position self)).
Proof.
  assert (G : forall l a, fold_left Nat.add l a = a + fold_left Nat.add l 0).
  { induction l as [| x l IHl]; intro a; simpl; [lia |].
    rewrite (IHl (a + x)), (IHl x). lia. }
  induction frame_counts as [| fc rest IH]; intros self cur Hp Hx Hc Hpos.
  - simpl. unfold slice. rewrite Nat.add_0_r, Nat.sub_diag. reflexivity.
  - simpl played. simpl fold_left. rewrite (G rest fc).
    set (total := fold_left Nat.add rest 0).
    set (p := current_position self) in *.
    unfold _audio_callback. rewrite Hp, Hc. simpl orb. cbv iota.
    destruct (Nat.lt_ge_cases (p + fc) (length cur)) as [Hlt | Hge].
    + rewrite (generate_playing_view self fc cur Hx Hc Hlt). fold p.
      simpl fst. simpl snd.
      set (cur' := scaled_in_place cur p (p + fc) (master_volume self)).
      assert (Hl : length cur' = length cur).
      { unfold cur', scaled_in_place.
        rewrite !length_app, length_firstn, scale_length, slice_length,
                length_skipn. lia. }
      match goal with
      | |- _ ++ played ?s rest = _ =>
          assert (IH' := IH s cur' Hp eq_refl eq_refl)
      end.
      simpl current_position in IH'. simpl master_volume in IH'.
      rewrite IH' by lia. fold total.
      assert (Hs : slice cur' (p + fc) (p + fc + total)
                   = slice cur (p + fc) (p + fc + total)).
      { unfold slice, cur'. rewrite skipn_scaled_in_place by lia. reflexivity. }
      rewrite Hs, app_assoc, <- limit_scale_app, slice_append.
      rewrite Hl, Nat.add_assoc. f_equal. f_equal. lia.
    + rewrite (render_end_of_track_eq self fc cur Hx Hc Hge). fold p.
      simpl fst. simpl snd.
      assert (IH' := IH (set_current_position self (length cur)) cur Hp Hx Hc).
      simpl current_position in IH'. simpl master_volume in IH'.
      rewrite IH' by lia. fold total.
      assert (Hs : slice cur (length cur) (length cur + total) = []).
      { unfold slice. rewrite skipn_all. apply firstn_nil. }
      rewrite Hs. simpl app.
      assert (Hs2 : slice cur p (p + (fc + total)) = skipn p cur).
      { unfold slice. apply firstn_all2. rewrite length_skipn. lia. }
      rewrite Hs2, <- app_assoc. f_equal.
      unfold np_zeros. rewrite <- repeat_app. f_equal. lia.
Qed.

Lemma playback_is_gapless_witness :
  played playing_ones [64; 64; 64; 64]
  = limit (scale (slice (ones 200) (current_position playing_ones)
                        (current_position playing_ones
                         + fold_left Nat.add [64; 64; 64; 64] 0))
                 (master_volume playing_ones))
    ++ np_zeros (fold_left Nat.add [64; 64; 64; 64] 0
                 - (length (ones 200) - current_position playing_ones)).
Proof.
  apply (playback_is_gapless [64; 64; 64; 64] playing_ones (ones 200)).
  - reflexivity.
  - reflexivity.
  - reflexivity.
  - simpl. lia.
Defined.

(** ** Loading and mixing the stems *)

(** The loop over the stems: how many were decoded, and how long the mix
    is. *)
Lemma stems_fold_from_some (stems : list (R * stem_file)) :
  forall (mixed : buffer) (loaded : nat),
  exists mixed' loaded',
    fold_left stem_step stems (Some mixed, loaded) = (Some mixed', loaded') /\
    loaded <= loaded' /\
    length mixed' = fold_left Nat.min (decoded_lengths stems) (length mixed).
Proof.
  induction stems as [| [v f] stems IH]; intros mixed loaded.
  - simpl. exists mixed, loaded. auto.
  - destruct f as [| | a]; cbn [fold_left decoded_lengths].
    + apply IH.
    + apply IH.
    + change (stem_step (Some mixed, loaded) (v, Decoded a))
        with (Some (add (slice mixed 0 (Nat.min (length mixed)
                                                (length (scale a v))))
                        (slice (scale a v) 0 (Nat.min (length mixed)
                                                      (length (scale a v))))),
              loaded + 1).
      destruct (IH (add (slice mixed 0 (Nat.min (length mixed)
                                                (length (scale a v))))
                        (slice (scale a v) 0 (Nat.min (length mixed)
                                                      (length (scale a v)))))
                   (loaded + 1))
        as (mixed' & loaded' & E & Hl & Hlen).
      exists mixed', loaded'. split; [exact E |]. split; [lia |].
      rewrite Hlen. f_equal.
      rewrite add_length, !slice_length, scale_length. lia.
Qed.

(** X26: [load_song_stems] returns no buffer when the directory is missing
    or no stem could be decoded; otherwise the mix is as long as the
    shortest decoded stem, and when that length is 0 the call raises
    [ValueError] (the maximum of an empty array). *)
Theorem load_song_stems_outcome (dir_exists : bool)
        (stems : list (R * stem_file)) :
  match (if dir_exists then decoded_lengths stems else []) with
  | [] => load_song_stems dir_exists stems = Ok None
  | len :: lens =>
      if fold_left Nat.min lens len =? 0
      then load_song_stems dir_exists stems = Raise ValueError
      else exists audio,
             load_song_stems dir_exists stems = Ok (Some audio) /\
             length audio = fold_left Nat.min lens len
  end.
Proof.
  unfold load_song_stems. destruct dir_exists; [| reflexivity].
  simpl negb. cbv iota. fold stem_step.
  induction stems as [| [v f] stems IH]; [reflexivity |].
  destruct f as [| | a]; cbn [fold_left decoded_lengths]; try exact IH.
  clear IH.
  change (stem_step (None, 0) (v, Decoded a)) with (Some (scale a v), 0 + 1).
  destruct (stems_fold_from_some stems (scale a v) (0 + 1))
    as (mixed & loaded & E & Hl & Hlen).
  rewrite E. rewrite scale_length in Hlen.
  replace (0 <? loaded) with true by (symmetry; apply Nat.ltb_lt; lia).
  destruct (Nat.eqb_spec (fold_left Nat.min (decoded_lengths stems) (length a)) 0)
    as [H0 | Hn].
  - rewrite H0 in Hlen. destruct mixed; [reflexivity | discriminate].
  - destruct mixed as [| f0 rest] eqn:Em; [simpl in Hlen; congruence |].
    rewrite <- Em in *.
    assert (Hm : exists m, np_max_abs mixed = Ok m)
      by (rewrite Em; simpl; eauto).
    destruct Hm as (m & ->). cbn [bind].
    destruct (Rlt_dec (95 / 100) m); eexists; (split; [reflexivity |]);
      rewrite ?scale_length; assumption.
Qed.

(** ** The block as bytes *)

(** With a float32 track, as [load_song_stems] returns it, the callback
    hands the device [frame_count] float32 stereo frames in every state. *)
Lemma audio_callback_nbytes_float32 (self : AudioMixer.t) (frame_count : nat) :
  1 <= frame_count ->
  _audio_callback_nbytes self float32 frame_count = frame_count * 2 * 4.
Proof.
  intro H. unfold _audio_callback_nbytes.
  destruct (audio_callback_frame_count self frame_count H) as (-> & _).
  assert (E : output_dtype self float32 frame_count = float32).
  { unfold output_dtype.
    destruct (negb (is_playing self) || _); [reflexivity |].
    destruct (negb (is_crossfading self)); [| reflexivity].
    destruct (current_audio self) as [cur |]; [| reflexivity].
    destruct (current_position self + frame_count <? length cur); reflexivity. }
  rewrite E. reflexivity.
Qed.

Lemma test_tone_length (sample_rate : nat) :
  length (test_tone sample_rate) = sample_rate * 2.
Proof.
  unfold test_tone. cbv zeta. rewrite length_map, length_seq. reflexivity.
Qed.

(** C1 (code bug): in the state that [test_audio_setup] installs (the
    float64 test tone as current buffer, cursor 0, playing), a callback for
    n frames, 1 <= n < 2 * sample_rate, returns the slice of the float64
    buffer: 16 n bytes, where n interleaved float32 stereo frames are 8 n
    bytes. *)
Theorem audio_callback_float64_block (sample_rate frame_count : nat) :
  1 <= frame_count ->
  frame_count < sample_rate * 2 ->
  let mixer := fst (test_audio_setup (AudioMixer.__init__ sample_rate)) in
  let current_dtype := snd (test_audio_setup (AudioMixer.__init__ sample_rate)) in
  current_dtype = float64 /\
  is_playing mixer = true /\
  is_crossfading mixer = false /\
  length (snd (_audio_callback mixer frame_count)) = frame_count /\
  _audio_callback_nbytes mixer current_dtype frame_count = frame_count * 16 /\
  _audio_callback_nbytes mixer current_dtype frame_count
  <> frame_count * 2 * itemsize float32.
Proof.
  intros H1 Hlt. cbv zeta.
  set (mixer := fst (test_audio_setup (AudioMixer.__init__ sample_rate))).
  split; [reflexivity |]. split; [reflexivity |]. split; [reflexivity |].
  destruct (audio_callback_frame_count mixer frame_count H1) as (L & _).
  split; [assumption |].
  assert (E : _audio_callback_nbytes mixer float64 frame_count
              = frame_count * 16).
  { unfold _audio_callback_nbytes. rewrite L.
    assert (D : output_dtype mixer float64 frame_count = float64).
    { unfold output_dtype, mixer, test_audio_setup. cbv zeta.
      cbn [fst is_playing is_crossfading current_audio current_position
           set_is_playing set_current_position set_current_audio
           AudioMixer.__init__ AudioMixer.sample_rate negb orb].
      rewrite test_tone_length.
      destruct (Nat.ltb_spec (0 + frame_count) (sample_rate * 2));
        [reflexivity | lia]. }
    rewrite D. simpl itemsize. lia. }
  change (snd (test_audio_setup (AudioMixer.__init__ sample_rate)))
    with float64.
  split; [assumption |]. rewrite E. simpl itemsize. lia.
Qed.

Lemma audio_callback_float64_block_witness :
  let mixer := fst (test_audio_setup (AudioMixer.__init__ 25)) in
  let current_dtype := snd (test_audio_setup (AudioMixer.__init__ 25)) in
  current_dtype = float64 /\
  is_playing mixer = true /\
  is_crossfading mixer = false /\
  length (snd (_audio_callback mixer 4)) = 4 /\
  _audio_callback_nbytes mixer current_dtype 4 = 4 * 16 /\
  _audio_callback_nbytes mixer current_dtype 4 <> 4 * 2 * itemsize float32.
Proof.
  apply (audio_callback_float64_block 25 4); lia.
Defined.

(** ** A current track that ends inside the crossfade window *)

(** With only 60 frames of the all-ones track, the second block of 50 finds
    fewer than 50 frames left, takes silence for the whole current chunk
    (lines 105-109), and sample 50 of the window is 0: the fade value of C6
    needs the track to reach the end of the window. *)
Example short_track_sample_50_is_zero :
  let s1 := fst (start_crossfade short_scenario) in
  let r1 := _audio_callback s1 50 in
  let r2 := _audio_callback (fst r1) 50 in
  snd (start_crossfade short_scenario) = true /\
  nth_error (snd r1 ++ snd r2) 50 = Some (0%R, 0%R).
Proof.
  cbv zeta. split; [reflexivity |].
  set (s1 := fst (start_crossfade short_scenario)).
  assert (E1 : _audio_callback s1 50
               = (advanced s1 50,
                  repeat (soft_limit (current_weight s1 * master_volume s1),
                          soft_limit (current_weight s1 * master_volume s1)) 50)).
  { apply (callback_crossfade_continuing s1 60 200);
      try reflexivity; simpl; lia. }
  rewrite E1. cbn [fst snd].
  set (s2 := advanced s1 50).
  assert (E2 : snd (_audio_callback s2 50) = np_zeros 50).
  { unfold _audio_callback.
    change (is_playing s2) with true.
    change (current_audio s2) with (Some (ones 60)).
    simpl orb. cbv iota.
    destruct (generate_crossfading s2 50 eq_refl)
      as (self' & output & E & _ & G).
    rewrite crossfade_finishing in E by (simpl; lia).
    change (crossfade_samples s2 - crossfade_position s2) with 50 in E.
    simpl np_zeros in E. rewrite app_nil_r in E.
    injection E as <- <-. rewrite G. cbn [snd].
    assert (M : mixed_chunk s2 50
                = repeat ((0 * (1 - INR 50 / INR 100) + 0 * (INR 50 / INR 100))%R,
                          (0 * (1 - INR 50 / INR 100) + 0 * (INR 50 / INR 100))%R)
                         50).
    { unfold mixed_chunk, current_chunk, next_chunk. cbv zeta.
      change (current_audio s2) with (Some (ones 60)).
      change (next_audio s2) with (Some (np_zeros 200)).
      change (current_position s2) with 50.
      change (crossfade_position s2) with 50.
      change (crossfade_samples s2) with 100.
      unfold ones at 1. rewrite repeat_length.
      replace (50 + 50 <=? 60) with false by reflexivity.
      rewrite np_zeros_length.
      replace (50 <=? 200) with true by reflexivity.
      unfold np_zeros. rewrite slice_repeat by lia.
      change (50 - 0) with 50.
      apply (mix_repeat (0%R, 0%R) (0%R, 0%R)). }
    rewrite M, limit_scale_repeat.
    replace ((0 * (1 - INR 50 / INR 100) + 0 * (INR 50 / INR 100))
             * master_volume (switched s2 50))%R with 0%R by ring.
    rewrite soft_limit_0. reflexivity. }
  rewrite E2. unfold np_zeros. apply nth_error_second_block.
Qed.
